(** * Crossword CSP solver (crossword/generate.py): shallow embedding

    The embedding follows [CrosswordCreator] method by method.  Python
    exceptions are explicit results; sets of words are [gset string], the
    dictionaries [self.domains] and [assignment] are [gmap]s keyed by
    crossword variables.

    Python fixes no order on the elements of a set, and [self.domains] is
    filled by iterating over the set of variables; the embedding iterates
    in the order of stdpp's [elements] and [map_to_list].  The dictionary
    [assignment] is iterated by [consistent] alone, whose outcome on a
    crossword with a symmetric, in-range overlap table is the same for
    every order.  The properties below do not depend on the order. *)

From Stdlib Require Import ZArith NArith Lia Ascii String.
From stdpp Require Import base decidable countable strings list sorting gmap fin_maps fin_sets.

Local Open Scope Z_scope.
Local Open Scope nat_scope.

(** ** Python results *)

Inductive exn := KeyError | IndexError | TypeError.

Inductive result (A : Type) : Type :=
  | Ok (a : A)
  | Raise (e : exn)
  | OutOfFuel.
Arguments Ok {A} a.
Arguments Raise {A} e.
Arguments OutOfFuel {A}.

Definition bind {A B} (m : result A) (k : A → result B) : result B :=
  match m with
  | Ok a => k a
  | Raise e => Raise e
  | OutOfFuel => OutOfFuel
  end.

#[global] Instance result_ret : MRet result := @Ok.
#[global] Instance result_bind : MBind result := λ A B k m, bind m k.

(** A [for] loop whose body may raise: the accumulator is the loop state. *)
Fixpoint foldM {A B} (f : B → A → result B) (b : B) (l : list A) : result B :=
  match l with
  | [] => Ok b
  | x :: l' => b' ← f b x; foldM f b' l'
  end.

(** A list comprehension whose body may raise. *)
Fixpoint mapM {A B} (f : A → result B) (l : list A) : result (list B) :=
  match l with
  | [] => Ok []
  | x :: l' => y ← f x; ys ← mapM f l'; Ok (y :: ys)
  end.

(** A [for] loop whose body may [return]: [Some r] leaves the function with
    [r], [None] goes on with the next element. *)
Fixpoint for_return {A R} (body : A → result (option R)) (l : list A) : result (option R) :=
  match l with
  | [] => Ok None
  | x :: l' =>
      r ← body x;
      match r with
      | Some v => Ok (Some v)
      | None => for_return body l'
      end
  end.

(** [i, j = t]: unpacking [None] is a [TypeError]. *)
Definition unpack (t : option (nat * nat)) : result (nat * nat) :=
  match t with
  | Some p => Ok p
  | None => Raise TypeError
  end.

(** [l.count(v)] *)
Definition count (v : string) (l : list string) : nat :=
  length (filter (λ w, w = v) l).

(** [sorted(items, key=...)]: a stable insertion sort on the integer key. *)
Fixpoint insert_by_key {A} (key : A → Z) (x : A) (l : list A) : list A :=
  match l with
  | [] => [x]
  | y :: l' => if (key y <? key x)%Z then y :: insert_by_key key x l' else x :: y :: l'
  end.

Definition sorted {A} (key : A → Z) (l : list A) : list A :=
  foldr (insert_by_key key) [] l.

(** [word[i]] for a non-negative index. *)
Definition str_index (word : string) (i : nat) : result ascii :=
  match String.get i word with
  | Some ch => Ok ch
  | None => Raise IndexError
  end.

(** ** The structure model (crossword.py) *)

Inductive Direction := ACROSS | DOWN.

Record variable := Var {
  var_i : nat;
  var_j : nat;
  var_length : nat;
  var_direction : Direction
}.

#[global] Instance Direction_eq_dec : EqDecision Direction.
Proof. solve_decision. Defined.
#[global] Program Instance Direction_countable : Countable Direction :=
  inj_countable' (λ d, match d with ACROSS => true | DOWN => false end)
                 (λ b : bool, if b then ACROSS else DOWN) _.
Next Obligation. by intros []. Qed.

#[global] Instance variable_eq_dec : EqDecision variable.
Proof. solve_decision. Defined.
#[global] Program Instance variable_countable : Countable variable :=
  inj_countable' (λ v, (var_i v, var_j v, var_length v, var_direction v))
                 (λ t, match t with (i, j, l, d) => Var i j l d end) _.
Next Obligation. by intros []. Qed.

(** Modelled from the spec: the [Crossword] class of crossword.py, which
    generate.py imports, is not among the source files.  The spec gives the
    set of variables, the word list, and an overlap table from pairs of
    distinct variables to "no overlap" or a pair of offsets. *)
Record Crossword := {
  variables : gset variable;
  words : gset string;
  overlap_table : variable → variable → option (nat * nat)
}.

(** Modelled from the spec: [crossword.overlaps[x, y]].  The table has an
    entry for every pair of distinct variables and for nothing else. *)
Definition overlaps (c : Crossword) (x y : variable) : result (option (nat * nat)) :=
  if decide (x ∈ variables c ∧ y ∈ variables c ∧ x ≠ y)
  then Ok (overlap_table c x y)
  else Raise KeyError.

(** Modelled from the spec: [crossword.neighbors(var)], the variables [v]
    other than [var] for which an overlap exists. *)
Definition neighbors (c : Crossword) (var : variable) : list variable :=
  filter (λ v, v ≠ var ∧ is_Some (overlap_table c v var)) (elements (variables c)).

(** ** CrosswordCreator *)

Abbreviation domains := (gmap variable (gset string)).
Abbreviation assignment := (gmap variable string).

(** Iteration over a dictionary visits its keys. *)
Definition keys {V} (m : gmap variable V) : list variable := (map_to_list m).*1.

(** [self.domains[x]] *)
Definition domains_get (d : domains) (x : variable) : result (gset string) :=
  match d !! x with
  | Some s => Ok s
  | None => Raise KeyError
  end.

(** [self.domains[x].remove(word)]: [set.remove] raises on a missing element. *)
Definition domains_remove (d : domains) (x : variable) (word : string) : result domains :=
  s ← domains_get d x;
  if decide (word ∈ s) then Ok (<[x := s ∖ {[word]}]> d) else Raise KeyError.

(** [__init__]: every variable starts with a copy of the whole word list. *)
Definition init (c : Crossword) : domains :=
  set_to_map (λ v, (v, words c)) (variables c).


(** [solve] and the three stages it runs. *)

Definition enforce_node_consistency (d : domains) : result domains :=
  let iter_domain := d in
  foldM (λ d1 domain,
      ws ← domains_get iter_domain domain;
      foldM (λ d2 word,
          if decide (String.length word ≠ var_length domain)
          then domains_remove d2 domain word
          else Ok d2)
        d1 (elements ws))
    d (keys d).

Definition revise (c : Crossword) (d : domains) (x y : variable) : result (bool * domains) :=
  let revised := false in
  o ← overlaps c x y;
  match o with
  | None => Ok (revised, d)
  | Some (i, j) =>
      iter_domain ← domains_get d x;
      foldM (λ (st : bool * domains) v1,
          dy ← domains_get st.2 y;
          possible_y_words ← foldM (λ n v2,
              a ← str_index v1 i;
              b ← str_index v2 j;
              Ok (if decide (a = b) then S n else n))
            0 (elements dy);
          if decide (possible_y_words = 0)
          then d' ← domains_remove st.2 x v1; Ok (true, d')
          else Ok st)
        (revised, d) (elements iter_domain)
  end.

(** The name [queue] is bound either to a deque object or, on the path that
    takes explicit arcs, to the class [deque] itself. *)
Inductive py_queue :=
  | Deque (q : list (variable * variable))
  | DequeClass.

(** [queue.append(arc)]: on the class this is the unbound method applied to
    a tuple. *)
Definition queue_append (queue : py_queue) (arc : variable * variable) : result py_queue :=
  match queue with
  | Deque q => Ok (Deque (q ++ [arc]))
  | DequeClass => Raise TypeError
  end.

(** The arcs [ac3] starts from when none are given. *)
Definition all_arcs (d : domains) : list (variable * variable) :=
  x ← keys d; y ← keys d; if decide (x ≠ y) then [(x, y)] else [].

(** The [while] loop of [ac3]; one unit of fuel per dequeued arc. *)
Fixpoint ac3_loop (c : Crossword) (fuel : nat) (queue : list (variable * variable))
    (d : domains) : result (bool * domains) :=
  match queue with
  | [] => Ok (true, d)
  | (x, y) :: queue' =>
      match fuel with
      | 0 => OutOfFuel
      | S fuel' =>
          '(revised, d') ← revise c d x y;
          if (revised : bool) then
            dx ← domains_get d' x;
            if decide (size dx = 0) then Ok (false, d')
            else ac3_loop c fuel'
                   (queue' ++ ((λ z, (z, x)) <$> filter (λ z, z ≠ y) (neighbors c x))) d'
          else ac3_loop c fuel' queue' d'
      end
  end.

Definition total_size (d : domains) : nat :=
  sum_list_with (λ p : variable * gset string, size p.2) (map_to_list d).

(** Dequeues that suffice for the loop to finish from [queue] and [d]. *)
Definition ac3_fuel (c : Crossword) (queue : list (variable * variable)) (d : domains) : nat :=
  length queue + total_size d * size (variables c).

Definition ac3 (c : Crossword) (d : domains) (arcs : option (list (variable * variable)))
    : result (bool * domains) :=
  queue ← match arcs with
          | None => Ok (Deque (all_arcs d))
          | Some arcs => foldM queue_append DequeClass arcs
          end;
  match queue with
  | Deque q => ac3_loop c (ac3_fuel c q d) q d
  | DequeClass => Raise TypeError   (* len(queue) *)
  end.

Definition assignment_complete (d : domains) (a : assignment) : bool :=
  bool_decide (size d = size a).

(** [assignment[variable]] *)
Definition assignment_get (a : assignment) (x : variable) : result string :=
  match a !! x with
  | Some w => Ok w
  | None => Raise KeyError
  end.

Definition consistent (c : Crossword) (a : assignment) : result bool :=
  let values := (map_to_list a).*2 in
  r1 ← for_return (λ v, if decide (count v values ≠ 1) then Ok (Some false) else Ok None) values;
  match r1 with
  | Some b => Ok b
  | None =>
  r2 ← for_return (λ variable,
          w ← assignment_get a variable;
          if decide (var_length variable ≠ String.length w) then Ok (Some false) else Ok None)
        (keys a);
  match r2 with
  | Some b => Ok b
  | None =>
  r3 ← for_return (λ variable,
          for_return (λ neighbor,
              if decide (neighbor ∈ dom a) then
                o ← overlaps c variable neighbor;
                '(i, j) ← unpack o;
                wv ← assignment_get a variable;
                wn ← assignment_get a neighbor;
                cv ← str_index wv i;
                cn ← str_index wn j;
                if decide (cv ≠ cn) then Ok (Some false) else Ok None
              else Ok None)
            (neighbors c variable))
        (keys a);
  match r3 with
  | Some b => Ok b
  | None => Ok true
  end end end.

Definition order_domain_values (c : Crossword) (d : domains) (var : variable)
    (a : assignment) : result (list string) :=
  dv ← domains_get d var;
  let values := elements dv in
  let neighbors := neighbors c var in
  values_value ← mapM (λ word,
      eliminations ← foldM (λ eliminations neighbor,
          if decide (neighbor ∈ dom a) then Ok eliminations
          else
            o ← overlaps c var neighbor;
            '(i, j) ← unpack o;
            dn ← domains_get d neighbor;
            let options_before := Z.of_nat (size dn) in
            options_after ← foldM (λ n option,
                cw ← str_index word i;
                co ← str_index option j;
                Ok (if decide (cw ≠ co) then (n + 1)%Z else n))
              0%Z (elements dn);
            Ok (eliminations + (options_before - options_after))%Z)
        0%Z neighbors;
      Ok (word, eliminations))
    values;
  let sorted_list := sorted snd values_value in
  Ok (sorted_list.*1).

(** The result is a Python value: a variable or [None]. *)
Definition select_unassigned_variable (c : Crossword) (d : domains) (a : assignment)
    : result (option variable) :=
  let used_variables := keys a in
  let variables := keys d in
  let possible_variables := filter (λ x, x ∉ used_variables) variables in
  variables_value ← mapM (λ variable,
      s ← domains_get d variable; Ok (variable, N.of_nat (size s)))
    possible_variables;
  let l := foldl (λ l (p : variable * N), if (p.2 <? l)%N then p.2 else l) 999999999%N variables_value in
  let lowest_variables := (filter (λ p : variable * N, p.2 = l) variables_value).*1 in
  match lowest_variables with
  | [v] => Ok (Some v)
  | _ =>
      Ok (foldl (λ (st : nat * option variable) variable,
              if decide (st.1 < length (neighbors c variable))
              then (length (neighbors c variable), Some variable)
              else st)
            (0, None) lowest_variables).2
  end.

(** The dictionary [assignment] is updated in place; a call that returns
    [None] has undone its own insertions, so the caller's dictionary after
    [del assignment[variable]] is the one it had before the insertion. *)
Fixpoint backtrack (c : Crossword) (d : domains) (fuel : nat) (a : assignment)
    : result (option assignment) :=
  match fuel with
  | 0 => OutOfFuel
  | S fuel' =>
      if assignment_complete d a then Ok (Some a)
      else
        variable ← select_unassigned_variable c d a;
        match variable with
        | None => Raise KeyError   (* order_domain_values: self.domains[None] *)
        | Some variable =>
            values ← order_domain_values c d variable a;
            for_return (λ word,
                let a' := <[variable := word]> a in
                ok ← consistent c a';
                if (ok : bool) then backtrack c d fuel' a' else Ok None)
              values
        end
  end.

Definition solve (c : Crossword) : result (option assignment) :=
  d1 ← enforce_node_consistency (init c);
  '(_, d2) ← ac3 c d1 None;
  backtrack c d2 (S (size d2)) ∅.

(** ** The letter grid *)

(** [letters[i][j] = ch]: an index past the end of a list is an
    [IndexError]. *)
Definition grid_set (letters : list (list (option ascii))) (i j : nat) (ch : ascii)
    : result (list (list (option ascii))) :=
  match letters !! i with
  | None => Raise IndexError
  | Some row =>
      if decide (j < length row)
      then Ok (<[i := <[j := Some ch]> row]> letters)
      else Raise IndexError
  end.

(** Modelled from the spec: [crossword.height] and [crossword.width], the
    dimensions of the grid, are the arguments [height] and [width]. *)
Definition letter_grid (height width : nat) (a : assignment)
    : result (list (list (option ascii))) :=
  let letters := replicate height (replicate width None) in
  foldM (λ letters (entry : variable * string),
      let variable := entry.1 in
      let word := entry.2 in
      let direction := var_direction variable in
      foldM (λ letters k,
          let i := var_i variable + (if decide (direction = DOWN) then k else 0) in
          let j := var_j variable + (if decide (direction = ACROSS) then k else 0) in
          ch ← str_index word k;
          grid_set letters i j ch)
        letters (seq 0 (String.length word)))
    letters (map_to_list a).

(** ** Small crosswords *)

Definition across2 : variable := Var 0 0 2 ACROSS.
Definition across3 : variable := Var 0 0 3 ACROSS.
Definition down3 : variable := Var 0 0 3 DOWN.
Definition right3 : variable := Var 0 1 3 DOWN.
Definition low3 : variable := Var 2 0 3 ACROSS.

(** A two-letter slot across whose second cell is the first cell of a
    three-letter slot down. *)
Definition hook (ws : gset string) : Crossword :=
  {| variables := {[across2; right3]};
     words := ws;
     overlap_table := λ x y,
       if decide (x = across2 ∧ y = right3) then Some (1, 0)
       else if decide (x = right3 ∧ y = across2) then Some (0, 1)
       else None |}.

(** Two three-letter slots, across and down, that share their first cell. *)
Definition corner (ws : gset string) : Crossword :=
  {| variables := {[across3; down3]};
     words := ws;
     overlap_table := λ x y,
       if decide (x = across3 ∧ y = down3 ∨ x = down3 ∧ y = across3) then Some (0, 0)
       else None |}.

(** Two three-letter slots on rows 0 and 2, which do not cross. *)
Definition rows (ws : gset string) : Crossword :=
  {| variables := {[across3; low3]};
     words := ws;
     overlap_table := λ _ _, None |}.

(** One three-letter slot. *)
Definition lone (ws : gset string) : Crossword :=
  {| variables := {[across3]};
     words := ws;
     overlap_table := λ _ _, None |}.

(** ** Vocabulary of the properties *)

(** [w] and [w'] carry the same character at offsets [i] and [j]. *)
Definition agree (i j : nat) (w w' : string) : Prop :=
  ∃ ch, String.get i w = Some ch ∧ String.get j w' = Some ch.

(** Some word of [sy] agrees with [w]. *)
Definition supported (i j : nat) (sy : gset string) (w : string) : Prop :=
  ∃ w', w' ∈ sy ∧ agree i j w w'.

(** Both words are long enough for the offsets. *)
Definition readable (i j : nat) (w w' : string) : Prop :=
  is_Some (String.get i w) ∧ is_Some (String.get j w').

Definition node_consistent_with (d0 d' : domains) (v : variable) : Prop :=
  ∃ s s', d0 !! v = Some s ∧ d' !! v = Some s' ∧
          ∀ w, w ∈ s' ↔ w ∈ s ∧ String.length w = var_length v.

(** The overlap table is symmetric, as the spec's data model states. *)
Definition overlap_symmetric (c : Crossword) : Prop :=
  ∀ x y i j, overlap_table c x y = Some (i, j) → overlap_table c y x = Some (j, i).

(** The arc from [x] to [y] is consistent in [d]: every word left for [x]
    has a partner among the words left for [y], and the comparison of any
    two of their words stays inside both words. *)
Definition arc_consistent (c : Crossword) (d : domains) (x y : variable) : Prop :=
  ∀ i j, overlap_table c x y = Some (i, j) →
    ∃ sx sy, d !! x = Some sx ∧ d !! y = Some sy ∧
      ∀ w, w ∈ sx → supported i j sy w ∧ ∀ w', w' ∈ sy → readable i j w w'.


Definition valid_arc (c : Crossword) (a : variable * variable) : Prop :=
  a.1 ∈ variables c ∧ a.2 ∈ variables c ∧ a.1 ≠ a.2.

(** What the worklist loop of [ac3] maintains: an arc that is not waiting
    in the queue is consistent. *)
Definition ac3_invariant (c : Crossword) (q : list (variable * variable)) (d : domains) : Prop :=
  dom d = variables c ∧ Forall (valid_arc c) q ∧
  ∀ x y, x ∈ variables c → y ∈ variables c → x ≠ y →
    (x, y) ∈ q ∨ arc_consistent c d x y.

(** The overlap offsets point inside the slots. *)
Definition overlap_in_range (c : Crossword) : Prop :=
  ∀ x y i j, x ∈ variables c → y ∈ variables c →
    overlap_table c x y = Some (i, j) → i < var_length x ∧ j < var_length y.

(** The three conditions of a consistent assignment. *)
Definition words_distinct (a : assignment) : Prop :=
  ∀ x y w, a !! x = Some w → a !! y = Some w → x = y.

Definition lengths_fit (a : assignment) : Prop :=
  ∀ x w, a !! x = Some w → String.length w = var_length x.

Definition overlaps_agree (c : Crossword) (a : assignment) : Prop :=
  ∀ x y wx wy, a !! x = Some wx → a !! y = Some wy → y ∈ neighbors c x →
    ∃ i j, overlap_table c x y = Some (i, j) ∧ agree i j wx wy.

(** The elimination score as the documentation of [order_domain_values]
    states it: over the neighbours of [var] that are not assigned, the
    number of words in the neighbour's domain that differ from [w] at the
    overlap offsets. *)
Definition elimination_score (c : Crossword) (d : domains) (var : variable)
    (a : assignment) (w : string) : nat :=
  sum_list_with
    (λ n, match overlap_table c var n, d !! n with
          | Some (i, j), Some dn =>
              length (filter (λ w', String.get i w ≠ String.get j w') (elements dn))
          | _, _ => 0
          end)
    (filter (λ n, n ∉ dom a) (neighbors c var)).

(** A store [e] inside a store [d]: every domain of [e] is a domain of [d]
    with some words left out. *)
Definition sub_store (e d : domains) : Prop :=
  ∀ x se, e !! x = Some se → ∃ s, d !! x = Some s ∧ se ⊆ s.

(** Every word of [e] has a partner in [e] along every overlap. *)
Definition self_supported (c : Crossword) (e : domains) : Prop :=
  ∀ x y i j se w, valid_arc c (x, y) → overlap_table c x y = Some (i, j) →
    e !! x = Some se → w ∈ se → supported i j (e !!! y) w.

(** Every word of every domain has the length of its variable. *)
Definition node_consistent (d : domains) : Prop :=
  ∀ v s w, d !! v = Some s → w ∈ s → String.length w = var_length v.

(** A solution of the crossword: a word of the word list for every
    variable, all different, each of the right length, and agreeing where
    two slots overlap. *)
Definition solution (c : Crossword) (s : assignment) : Prop :=
  dom s = variables c ∧ (∀ v w, s !! v = Some w → w ∈ words c)
  ∧ words_distinct s ∧ lengths_fit s ∧ overlaps_agree c s.

(** The cell of the [k]-th letter of a slot. *)
Definition cell (v : variable) (k : nat) : nat * nat :=
  (var_i v + (if decide (var_direction v = DOWN) then k else 0),
   var_j v + (if decide (var_direction v = ACROSS) then k else 0)).

(** [letters[i][j]], when both indices are inside. *)
Definition grid_at (g : list (list (option ascii))) (p : nat * nat)
    : option (option ascii) :=
  match g !! p.1 with
  | Some row => row !! p.2
  | None => None
  end.

(** A grid of [height] rows of [width] cells. *)
Definition grid_shape (height width : nat) (g : list (list (option ascii))) : Prop :=
  length g = height ∧ Forall (λ row, length row = width) g.

(** The letter [ch] of some assigned word falls on the cell [p]. *)
Definition covers (a : assignment) (p : nat * nat) (ch : ascii) : Prop :=
  ∃ v w k, a !! v = Some w ∧ String.get k w = Some ch ∧ cell v k = p.

(** An unassigned variable with the fewest words left among the
    unassigned variables. *)
Definition minimal_unassigned (d : domains) (a : assignment) (u : variable) : Prop :=
  u ∈ dom d ∧ u ∉ dom a
  ∧ ∀ u', u' ∈ dom d → u' ∉ dom a → size (d !!! u) ≤ size (d !!! u').

(** * Properties *)

(** ** Results and loops *)

Lemma bind_Ok {A B} (m : result A) (k : A → result B) b :
  m ≫= k = Ok b ↔ ∃ a, m = Ok a ∧ k a = Ok b.
Proof.
  destruct m; simpl; split; try (intros [a0 [? ?]]); try discriminate; eauto.
  by simplify_eq.
Qed.

Lemma bind_not_OutOfFuel {A B} (m : result A) (k : A → result B) :
  m ≠ OutOfFuel → (∀ a, m = Ok a → k a ≠ OutOfFuel) → m ≫= k ≠ OutOfFuel.
Proof. destruct m; simpl; intros Hm Hk; [by apply Hk | done | done]. Qed.

Tactic Notation "inv_bind" hyp(H) "as" ident(a) ident(Ha) :=
  apply bind_Ok in H; destruct H as (a & Ha & H).

Lemma domains_get_Ok (d : domains) x s : domains_get d x = Ok s ↔ d !! x = Some s.
Proof. unfold domains_get. destruct (d !! x); split; intros; by simplify_eq. Qed.

Lemma domains_remove_Ok (d : domains) x w d' :
  domains_remove d x w = Ok d' ↔
  ∃ s, d !! x = Some s ∧ w ∈ s ∧ d' = <[x := s ∖ {[w]}]> d.
Proof.
  unfold domains_remove. rewrite bind_Ok. split.
  - intros (s & Hs%domains_get_Ok & H). case_decide; simplify_eq. eauto.
  - intros (s & Hs & Hw & ->). exists s. rewrite domains_get_Ok.
    split; [done|]. by rewrite decide_True.
Qed.

(** ** Node consistency *)

Section node_consistency.
Context (domain : variable).

(** The inner loop of [enforce_node_consistency], over the snapshot [ws]. *)
Lemma node_inner_loop (ws : list string) : ∀ (d2 : domains) (s : gset string),
  d2 !! domain = Some s → NoDup ws → (∀ w, w ∈ ws → w ∈ s) →
  ∃ s', foldM (λ d2 word,
            if decide (String.length word ≠ var_length domain)
            then domains_remove d2 domain word
            else Ok d2) d2 ws = Ok (<[domain := s']> d2)
        ∧ ∀ w, w ∈ s' ↔ w ∈ s ∧ (w ∈ ws → String.length w = var_length domain).
Proof.
  induction ws as [|w ws IH]; intros d2 s Hs Hnd Hin; simpl.
  - exists s. rewrite insert_id; [|done]. split; [done|]. set_solver.
  - apply NoDup_cons in Hnd as [Hw Hnd]. case_decide as Hlen.
    + assert (domains_remove d2 domain w = Ok (<[domain := s ∖ {[w]}]> d2)) as ->.
      { apply domains_remove_Ok. exists s. set_solver. }
      simpl. destruct (IH (<[domain := s ∖ {[w]}]> d2) (s ∖ {[w]})) as (s' & -> & Hs').
      { by rewrite lookup_insert_eq. }
      { done. }
      { intros w' Hw'. set_solver. }
      exists s'. rewrite insert_insert_eq. split; [done|].
      intros w'. rewrite Hs'. set_solver.
    + simpl. destruct (IH d2 s Hs Hnd) as (s' & -> & Hs'); [set_solver|].
      exists s'. split; [done|]. intros w'. rewrite Hs'. set_solver.
Qed.
End node_consistency.

Lemma node_outer_loop (d0 : domains) (l : list variable) : ∀ d1 : domains,
  NoDup l → (∀ v, v ∈ l → is_Some (d0 !! v) ∧ d1 !! v = d0 !! v) →
  ∃ d', foldM (λ d1 domain,
            ws ← domains_get d0 domain;
            foldM (λ d2 word,
                if decide (String.length word ≠ var_length domain)
                then domains_remove d2 domain word
                else Ok d2)
              d1 (elements ws)) d1 l = Ok d'
        ∧ (∀ v, v ∈ l → node_consistent_with d0 d' v)
        ∧ (∀ v, v ∉ l → d' !! v = d1 !! v).
Proof.
  induction l as [|x l IH]; intros d1 Hnd Hl; simpl.
  - exists d1. split; [done|]. split; [|done]. intros v Hv. by apply not_elem_of_nil in Hv.
  - apply NoDup_cons in Hnd as [Hx Hnd].
    destruct (Hl x) as [[s Hs] Hd1]; [left|].
    rewrite (proj2 (domains_get_Ok d0 x s) Hs). simpl.
    destruct (node_inner_loop x (elements s) d1 s) as (s' & -> & Hs').
    { by rewrite Hd1. }
    { apply NoDup_elements. }
    { intros w. by rewrite elem_of_elements. }
    simpl. destruct (IH (<[x := s']> d1)) as (d' & -> & Hin & Hout); [done| |].
    { intros v Hv. destruct (Hl v) as [? ?]; [by right|]. split; [done|].
      rewrite lookup_insert_ne; [done|]. intros ->. done. }
    exists d'. split; [done|]. split.
    + intros v [->|Hv]%elem_of_cons; [|by apply Hin].
      exists s, s'. split; [done|]. split.
      * rewrite Hout; [|done]. by rewrite lookup_insert_eq.
      * intros w. rewrite Hs', elem_of_elements. naive_solver.
    + intros v Hv. apply not_elem_of_cons in Hv as [? ?].
      rewrite Hout; [|done]. by rewrite lookup_insert_ne.
Qed.

Lemma elem_of_keys {V} (m : gmap variable V) x : x ∈ keys m ↔ is_Some (m !! x).
Proof.
  unfold keys. rewrite list_elem_of_fmap. split.
  - intros ([k v] & -> & Hkv%elem_of_map_to_list). eauto.
  - intros [v Hv]. exists (x, v). by rewrite elem_of_map_to_list.
Qed.

Lemma NoDup_keys {V} (m : gmap variable V) : NoDup (keys m).
Proof. apply NoDup_fst_map_to_list. Qed.

Lemma enforce_node_consistency_Ok (d : domains) :
  ∃ d', enforce_node_consistency d = Ok d'
        ∧ dom d' = dom d
        ∧ ∀ v s, d !! v = Some s →
            ∃ s', d' !! v = Some s'
                  ∧ ∀ w, w ∈ s' ↔ w ∈ s ∧ String.length w = var_length v.
Proof.
  unfold enforce_node_consistency.
  destruct (node_outer_loop d (keys d) d) as (d' & Hd' & Hin & Hout).
  { apply NoDup_keys. }
  { intros v Hv%elem_of_keys. done. }
  exists d'. split; [done|]. split.
  - apply set_eq. intros v. rewrite !elem_of_dom.
    destruct (decide (v ∈ keys d)) as [Hv|Hv].
    + destruct (Hin v Hv) as (s & s' & -> & -> & _). split; eauto.
    + by rewrite Hout.
  - intros v s Hs. destruct (Hin v) as (s0 & s' & Hs0 & Hs' & Hw).
    { apply elem_of_keys. eauto. }
    simplify_eq. eauto.
Qed.

(** C7: [enforce_node_consistency] returns normally; in the store it leaves,
    the domain of every variable consists of exactly those words of its
    former domain whose length is the variable's length, and no variable is
    added or dropped. *)
Theorem enforce_node_consistency_spec (d : domains) :
  ∃ d', enforce_node_consistency d = Ok d'
        ∧ dom d' = dom d
        ∧ ∀ v s, d !! v = Some s →
            ∃ s', d' !! v = Some s'
                  ∧ ∀ w, w ∈ s' ↔ w ∈ s ∧ String.length w = var_length v.
Proof. apply enforce_node_consistency_Ok. Qed.

(** ** [revise] *)

Lemma str_index_Ok w i ch : str_index w i = Ok ch ↔ String.get i w = Some ch.
Proof. unfold str_index. destruct (String.get i w); split; intros; by simplify_eq. Qed.

Local Abbreviation count_body i j v1 :=
  (λ (n : nat) (v2 : string),
     a ← str_index v1 i; b ← str_index v2 j; Ok (if decide (a = b) then S n else n)).

Local Abbreviation revise_body i j x y :=
  (λ (st : bool * domains) (v1 : string),
     dy ← domains_get st.2 y;
     possible_y_words ← foldM (count_body i j v1) 0 (elements dy);
     if decide (possible_y_words = 0)
     then d' ← domains_remove st.2 x v1; Ok (true, d')
     else Ok st).

Section revise.
Context (i j : nat).

Lemma count_loop_spec v1 (l : list string) : ∀ n0 n,
  foldM (count_body i j v1) n0 l = Ok n →
  n0 ≤ n ∧ (∀ v2, v2 ∈ l → readable i j v1 v2)
  ∧ (n = n0 → ∀ v2, v2 ∈ l → ¬ agree i j v1 v2)
  ∧ (n ≠ n0 → ∃ v2, v2 ∈ l ∧ agree i j v1 v2).
Proof.
  induction l as [|v2 l IH]; intros n0 n H; simpl in H.
  - simplify_eq. split; [done|]. split; [|split]; [| |done].
    + by intros v2 ?%not_elem_of_nil.
    + by intros _ v2 ?%not_elem_of_nil.
  - inv_bind H as n1 Hn1. inv_bind Hn1 as a Ha. inv_bind Hn1 as b Hb. simplify_eq.
    apply str_index_Ok in Ha, Hb. apply IH in H as (Hle & Hread & Heq & Hne).
    assert (readable i j v1 v2) as Hr by (split; eauto).
    split; [case_decide; lia|]. split.
    { intros v [->|?]%elem_of_cons; auto. }
    case_decide as Hch; subst; split.
    + intros ->. lia.
    + intros _. destruct (decide (n = S n0)) as [->|Hn].
      * exists v2. split; [left|]. by exists b.
      * destruct (Hne Hn) as (v & ? & ?). exists v. split; [by right|done].
    + intros -> v [->|?]%elem_of_cons; [|by apply Heq].
      intros (ch & ? & ?). congruence.
    + intros Hn. destruct (Hne Hn) as (v & ? & ?). exists v. split; [by right|done].
Qed.

Lemma count_loop_total v1 (l : list string) : ∀ n0,
  (∀ v2, v2 ∈ l → readable i j v1 v2) →
  ∃ n, foldM (count_body i j v1) n0 l = Ok n.
Proof.
  induction l as [|v2 l IH]; intros n0 Hr; simpl; [eauto|].
  destruct (Hr v2) as [[a Ha] [b Hb]]; [left|].
  destruct (IH (if decide (a = b) then S n0 else n0)) as [n Hn].
  { intros v ?. apply Hr. by right. }
  exists n. apply bind_Ok. eexists. split; [|exact Hn].
  apply bind_Ok. exists a. split; [by apply str_index_Ok|].
  apply bind_Ok. exists b. split; [by apply str_index_Ok|done].
Qed.

Context (x y : variable) (Hxy : x ≠ y).

Lemma revise_loop_spec (l : list string) : ∀ (r : bool) (d1 : domains) s r' d',
  d1 !! x = Some s → NoDup l → (∀ w, w ∈ l → w ∈ s) →
  foldM (revise_body i j x y) (r, d1) l = Ok (r', d') →
  ∃ s', d' = <[x := s']> d1
    ∧ (∀ w, w ∈ s' ↔ w ∈ s ∧ (w ∈ l → supported i j (d1 !!! y) w))
    ∧ (∀ w w', w ∈ l → w' ∈ d1 !!! y → readable i j w w')
    ∧ (r' = true ↔ r = true ∨ s' ≠ s).
Proof.
  induction l as [|w l IH]; intros r d1 s r' d' Hs Hnd Hin H; simpl in H.
  - simplify_eq. exists s. rewrite insert_id; [|done]. split; [done|].
    split; [set_solver|]. split; [set_solver|]. naive_solver.
  - apply NoDup_cons in Hnd as [Hw Hnd]. inv_bind H as st Hst.
    inv_bind Hst as dy Hdy. inv_bind Hst as n Hcount.
    simpl in *. apply domains_get_Ok in Hdy.
    assert (d1 !!! y = dy) as Hdy' by by apply lookup_total_correct.
    subst dy. apply count_loop_spec in Hcount as (_ & Hread & Hzero & Hpos).
    case_decide as Hn.
    + inv_bind Hst as d2 Hd2. injection Hst as <-.
      apply domains_remove_Ok in Hd2 as (s0 & Hs0 & Hws & ->).
      rewrite Hs in Hs0. injection Hs0 as <-.
      apply IH with (s := s ∖ {[w]}) in H as (s' & -> & Hmem & Hr & Hrev);
        [|by rewrite lookup_insert_eq|done|set_solver].
      rewrite lookup_total_insert_ne in Hmem, Hr by done.
      exists s'. rewrite insert_insert_eq. split; [done|]. split; [|split].
      * intros w0. rewrite Hmem. split.
        -- intros [[? ?%not_elem_of_singleton]%elem_of_difference Hsup]. split; [done|].
           intros [?|?]%elem_of_cons; [done|auto].
        -- intros [? Hsup]. assert (w0 ≠ w) as Hne.
           { intros ->. destruct Hsup as (w' & Hw' & Hag); [left|].
             eapply (Hzero Hn w'); [|done]. by apply elem_of_elements. }
           split; [set_solver|]. intros ?. apply Hsup. by right.
      * intros w0 w' [->|?]%elem_of_cons Hw'; [|by apply Hr].
        apply Hread. by apply elem_of_elements.
      * split; [|by intros _; apply Hrev; left]. intros _. right. intros ->.
        apply Hmem in Hws. set_solver.
    + injection Hst as <-. apply IH with (s := s) in H as (s' & -> & Hmem & Hr & Hrev);
        [|done|done|set_solver].
      exists s'. split; [done|]. split; [|split]; [| |done].
      * intros w0. rewrite Hmem. split; intros [? Hsup]; (split; [done|]).
        -- intros [->|?]%elem_of_cons; [|auto].
           destruct (Hpos Hn) as (v2 & ?%elem_of_elements & ?). by exists v2.
        -- intros ?. apply Hsup. by right.
      * intros w0 w' [->|?]%elem_of_cons Hw'; [|by apply Hr].
        apply Hread. by apply elem_of_elements.
Qed.

(** When every word of the snapshot is supported and readable the loop
    removes nothing. *)
Lemma revise_loop_noop (l : list string) (r : bool) (d1 : domains) sy :
  d1 !! y = Some sy →
  (∀ w, w ∈ l → supported i j sy w ∧ ∀ w', w' ∈ sy → readable i j w w') →
  foldM (revise_body i j x y) (r, d1) l = Ok (r, d1).
Proof.
  intros Hy. induction l as [|w l IH]; intros Hl; simpl; [done|].
  rewrite (proj2 (domains_get_Ok d1 y sy) Hy). simpl.
  destruct (Hl w) as [Hsup Hr]; [left|].
  destruct (count_loop_total w (elements sy) 0) as [n Hn].
  { intros v2 ?%elem_of_elements. by apply Hr. }
  rewrite Hn. simpl. apply count_loop_spec in Hn as (_ & _ & Hzero & _).
  rewrite decide_False.
  - apply IH. intros w0 ?. apply Hl. by right.
  - intros ->. destruct Hsup as (w' & Hw' & Hag).
    eapply (Hzero eq_refl w'); [|done]. by apply elem_of_elements.
Qed.
End revise.

Lemma overlaps_Ok c x y o :
  overlaps c x y = Ok o ↔
  x ∈ variables c ∧ y ∈ variables c ∧ x ≠ y ∧ o = overlap_table c x y.
Proof.
  unfold overlaps. case_decide; split; intros; simplify_eq; naive_solver.
Qed.

(** What a returning call of [revise] has done. *)
Lemma revise_Ok c d x y r d' :
  revise c d x y = Ok (r, d') →
  x ∈ variables c ∧ y ∈ variables c ∧ x ≠ y ∧
  match overlap_table c x y with
  | None => r = false ∧ d' = d
  | Some (i, j) =>
      ∃ sx sx', d !! x = Some sx ∧ d' = <[x := sx']> d
        ∧ (∀ w, w ∈ sx' ↔ w ∈ sx ∧ supported i j (d !!! y) w)
        ∧ (∀ w w', w ∈ sx → w' ∈ d !!! y → readable i j w w')
        ∧ (r = true ↔ sx' ≠ sx)
  end.
Proof.
  unfold revise. intros H. inv_bind H as o Ho.
  apply overlaps_Ok in Ho as (Hx & Hy & Hxy & ->).
  split; [done|]. split; [done|]. split; [done|].
  destruct (overlap_table c x y) as [[i j]|]; [|by simplify_eq].
  inv_bind H as sx Ha. apply domains_get_Ok in Ha.
  apply revise_loop_spec with (s := sx) in H as (s' & -> & Hmem & Hr & Hrev);
    [|done|done|apply NoDup_elements|by intros w ?%elem_of_elements].
  exists sx, s'. split; [done|]. split; [done|]. split; [|split].
  - intros w. rewrite Hmem, elem_of_elements. naive_solver.
  - intros w w' ?%elem_of_elements. by apply Hr.
  - rewrite Hrev. naive_solver.
Qed.

Lemma revise_unchanged c d x y d' : revise c d x y = Ok (false, d') → d' = d.
Proof.
  intros (_ & _ & _ & H)%revise_Ok. destruct (overlap_table c x y) as [[i j]|]; [|naive_solver].
  destruct H as (sx & sx' & Hsx & -> & _ & _ & Hrev).
  destruct (decide (sx' = sx)) as [->|Hne]; [by apply insert_id|].
  apply Hrev in Hne. done.
Qed.

Lemma revise_shrinks c d x y d' :
  revise c d x y = Ok (true, d') →
  ∃ sx sx', d !! x = Some sx ∧ d' = <[x := sx']> d ∧ sx' ⊂ sx.
Proof.
  intros (_ & _ & _ & H)%revise_Ok. destruct (overlap_table c x y) as [[i j]|]; [|naive_solver].
  destruct H as (sx & sx' & Hsx & -> & Hmem & _ & Hrev).
  exists sx, sx'. split; [done|]. split; [done|].
  assert (sx' ⊆ sx) as Hsub by (intros w; rewrite Hmem; naive_solver).
  split; [done|]. intros Hsub'. apply Hrev; [done|]. by apply (anti_symm (⊆)).
Qed.

Lemma total_size_insert (d : domains) x sx sx' :
  d !! x = Some sx → total_size (<[x := sx']> d) + size sx = total_size d + size sx'.
Proof.
  intros Hx. unfold total_size.
  rewrite <-(insert_delete_id d x sx) at 2 by done. rewrite <-(insert_delete_eq d).
  rewrite !map_to_list_insert by apply lookup_delete_eq. simpl. lia.
Qed.

Lemma revise_total_size c d x y d' :
  revise c d x y = Ok (true, d') → total_size d' < total_size d.
Proof.
  intros (sx & sx' & Hsx & -> & Hsub)%revise_shrinks.
  pose proof (total_size_insert d x sx sx' Hsx). apply subset_size in Hsub. lia.
Qed.

(** ** [ac3]: the loop ends *)

Lemma foldM_not_OutOfFuel {A B} (f : B → A → result B) (l : list A) : ∀ b,
  (∀ b x, f b x ≠ OutOfFuel) → foldM f b l ≠ OutOfFuel.
Proof.
  induction l as [|x l IH]; intros b Hf; simpl; [done|].
  apply bind_not_OutOfFuel; [apply Hf|]. intros b' _. by apply IH.
Qed.

Lemma domains_get_not_OutOfFuel (d : domains) x : domains_get d x ≠ OutOfFuel.
Proof. unfold domains_get. by destruct (d !! x). Qed.

Lemma domains_remove_not_OutOfFuel (d : domains) x w : domains_remove d x w ≠ OutOfFuel.
Proof.
  unfold domains_remove. apply bind_not_OutOfFuel; [apply domains_get_not_OutOfFuel|].
  intros s _. by case_decide.
Qed.

Lemma str_index_not_OutOfFuel w i : str_index w i ≠ OutOfFuel.
Proof. unfold str_index. by destruct (String.get i w). Qed.

Lemma revise_not_OutOfFuel c d x y : revise c d x y ≠ OutOfFuel.
Proof.
  unfold revise. apply bind_not_OutOfFuel.
  { unfold overlaps. by case_decide. }
  intros [[i j]|] _; [|done].
  apply bind_not_OutOfFuel; [apply domains_get_not_OutOfFuel|]. intros sx _.
  apply foldM_not_OutOfFuel. intros st v1.
  apply bind_not_OutOfFuel; [apply domains_get_not_OutOfFuel|]. intros dy _.
  apply bind_not_OutOfFuel.
  { apply foldM_not_OutOfFuel. intros n v2.
    apply bind_not_OutOfFuel; [apply str_index_not_OutOfFuel|]. intros a _.
    apply bind_not_OutOfFuel; [apply str_index_not_OutOfFuel|]. done. }
  intros n _. case_decide; [|done].
  apply bind_not_OutOfFuel; [apply domains_remove_not_OutOfFuel|]. done.
Qed.

Lemma length_neighbors c x : length (neighbors c x) ≤ size (variables c).
Proof. unfold neighbors. apply length_filter. Qed.

Lemma length_requeued c x y :
  length ((λ z, (z, x)) <$> filter (λ z, z ≠ y) (neighbors c x)) ≤ size (variables c).
Proof.
  rewrite length_fmap. etrans; [apply length_filter|]. apply length_neighbors.
Qed.

(** With [ac3_fuel] dequeues or more the loop reaches its end, and any
    further supply changes nothing. *)
Lemma ac3_loop_enough_fuel c : ∀ fuel q d,
  ac3_fuel c q d ≤ fuel →
  ac3_loop c fuel q d ≠ OutOfFuel
  ∧ ∀ k, ac3_loop c (fuel + k) q d = ac3_loop c fuel q d.
Proof.
  induction fuel as [|fuel IH]; intros [|[x y] q] d Hfuel.
  { split; [done|]. by intros []. }
  { unfold ac3_fuel in Hfuel. simpl in Hfuel. lia. }
  { split; [done|]. by intros []. }
  simpl. destruct (revise c d x y) as [[[] d']|e|] eqn:Hrev; simpl; try done.
  - destruct (domains_get d' x) as [dx|e|] eqn:Hdx; simpl; try done;
      [|by apply domains_get_not_OutOfFuel in Hdx].
    case_decide; [done|]. apply IH.
    pose proof (revise_total_size _ _ _ _ _ Hrev).
    pose proof (length_requeued c x y).
    unfold ac3_fuel in *. simpl in Hfuel. rewrite length_app. nia.
  - apply revise_unchanged in Hrev as ->. apply IH.
    unfold ac3_fuel in *. simpl in Hfuel. lia.
  - by apply revise_not_OutOfFuel in Hrev.
Qed.

(** C9: [ac3] comes to an end for every structure and every domain store:
    it returns or raises, the loop over the default arcs needing at most
    [ac3_fuel] dequeues (more fuel gives the same outcome), because a call
    of [revise] that reports a revision has strictly shrunk the store. *)
Theorem ac3_terminates (c : Crossword) (d : domains) :
  (∀ arcs, (∃ b d', ac3 c d arcs = Ok (b, d')) ∨ (∃ e, ac3 c d arcs = Raise e))
  ∧ (∀ k, ac3_loop c (ac3_fuel c (all_arcs d) d + k) (all_arcs d) d = ac3 c d None)
  ∧ (∀ x y d', revise c d x y = Ok (true, d') → total_size d' < total_size d).
Proof.
  destruct (ac3_loop_enough_fuel c (ac3_fuel c (all_arcs d) d) (all_arcs d) d)
    as [Hend Hmore]; [done|].
  split; [|split].
  - intros [[|arc arcs]|]; [right; by exists TypeError..|].
    unfold ac3. simpl.
    destruct (ac3_loop c (ac3_fuel c (all_arcs d) d) (all_arcs d) d) as [[b d']|e|];
      [left|right|done]; eauto.
  - intros k. by rewrite Hmore.
  - intros x y d'. apply revise_total_size.
Qed.

(** ** [ac3]: the loop invariant *)

Lemma agree_sym i j w w' : agree i j w w' → agree j i w' w.
Proof. intros (ch & ? & ?). by exists ch. Qed.

Lemma elem_of_neighbors c x z :
  z ∈ neighbors c x ↔ z ∈ variables c ∧ z ≠ x ∧ is_Some (overlap_table c z x).
Proof. unfold neighbors. rewrite list_elem_of_filter, elem_of_elements. naive_solver. Qed.

Lemma elem_of_all_arcs (d : domains) x y :
  (x, y) ∈ all_arcs d ↔ x ∈ dom d ∧ y ∈ dom d ∧ x ≠ y.
Proof.
  unfold all_arcs. rewrite !elem_of_dom, <-!elem_of_keys. split.
  - intros (x' & Hin & Hx')%list_elem_of_bind.
    apply list_elem_of_bind in Hin as (y' & Hin & Hy').
    case_decide; [|by apply not_elem_of_nil in Hin].
    apply list_elem_of_singleton in Hin. by simplify_eq.
  - intros (Hx & Hy & Hne). apply list_elem_of_bind. exists x. split; [|done].
    apply list_elem_of_bind. exists y. split; [|done].
    rewrite decide_True by done. by apply list_elem_of_singleton.
Qed.

Section ac3_invariant.
Context (c : Crossword) (Hsym : overlap_symmetric c).

Lemma arc_consistent_after_revise d x y r d' :
  revise c d x y = Ok (r, d') → is_Some (d !! y) → arc_consistent c d' x y.
Proof.
  intros (_ & _ & Hxy & H)%revise_Ok [sy Hsy] i j Hij. rewrite Hij in H.
  destruct H as (sx & sx' & Hsx & -> & Hmem & Hread & _).
  rewrite (lookup_total_correct _ _ _ Hsy) in Hmem, Hread.
  exists sx', sy. rewrite lookup_insert_eq, lookup_insert_ne by done.
  split; [done|]. split; [done|]. intros w [Hw Hsup]%Hmem. split; [done|].
  intros w' Hw'. by apply Hread.
Qed.

(** A revision of [x] against [y] leaves consistent every arc that was
    so, apart from the arcs into [x] from neighbours other than [y]. *)
Lemma arc_consistent_preserved d x y d' a b :
  revise c d x y = Ok (true, d') → is_Some (d !! y) →
  arc_consistent c d a b →
  b ≠ x ∨ a = y → arc_consistent c d' a b.
Proof.
  intros (_ & _ & Hxy & H)%revise_Ok [sy Hsy] Hab Hcase i j Hij.
  destruct (Hab i j Hij) as (sa & sb & Hsa & Hsb & Hw).
  destruct (overlap_table c x y) as [[i0 j0]|] eqn:Hxy0; [|naive_solver].
  destruct H as (sx & sx' & Hsx & -> & Hmem & Hread & _).
  rewrite (lookup_total_correct _ _ _ Hsy) in Hmem, Hread.
  destruct (decide (b = x)) as [->|Hb].
  - destruct Hcase as [?| ->]; [done|].
    apply Hsym in Hij. rewrite Hij in Hxy0. simplify_eq.
    exists sy, sx'. rewrite lookup_insert_eq, lookup_insert_ne by done.
    split; [done|]. split; [done|]. intros w Hws.
    destruct (Hw w Hws) as [(w' & Hw' & Hag) Hr]. split.
    + exists w'. split; [|done]. apply Hmem. split; [done|].
      exists w. split; [done|]. by apply agree_sym.
    + intros w'' [? _]%Hmem. by apply Hr.
  - destruct (decide (a = x)) as [->|Ha].
    + simplify_eq. exists sx', sb. rewrite lookup_insert_eq, lookup_insert_ne by done.
      split; [done|]. split; [done|]. intros w [? _]%Hmem. by apply Hw.
    + exists sa, sb. rewrite !lookup_insert_ne by done. done.
Qed.

Lemma ac3_loop_sound : ∀ fuel q d d',
  ac3_invariant c q d → ac3_loop c fuel q d = Ok (true, d') →
  ac3_invariant c [] d'.
Proof.
  induction fuel as [|fuel IH]; intros [|[x y] q] d d' (Hdom & Hq & Harcs) H;
    simpl in H; try by simplify_eq.
  inv_bind H as st Hrev. destruct st as [r d1].
  apply Forall_cons in Hq as [(Hx & Hy & Hxy) Hq]. simpl in *.
  assert (is_Some (d !! y)) as Hsy by by rewrite <-elem_of_dom, Hdom.
  destruct r.
  - inv_bind H as dx Hdx. case_decide; [done|]. apply IH in H; [done|].
    pose proof Hrev as (sx & sx' & Hsx & -> & _)%revise_shrinks.
    split; [|split].
    + rewrite dom_insert_L, <-Hdom. apply elem_of_dom_2 in Hsx. set_solver.
    + apply Forall_app. split; [done|]. apply Forall_fmap, Forall_forall.
      intros z [_ (? & ? & _)%elem_of_neighbors]%list_elem_of_filter. done.
    + intros a b Ha Hb Hab. rewrite elem_of_app.
      destruct (Harcs a b Ha Hb Hab) as [[?|?]%elem_of_cons|Hcons].
      * simplify_eq. right. by eapply arc_consistent_after_revise.
      * by left; left.
      * destruct (decide (b = x)) as [->|?];
          [|by right; eapply arc_consistent_preserved; eauto].
        destruct (decide (a = y)) as [->|?];
          [by right; eapply arc_consistent_preserved; eauto|].
        destruct (overlap_table c a x) as [ij|] eqn:Hax.
        -- left. right. apply list_elem_of_fmap. exists a. split; [done|].
           apply list_elem_of_filter. split; [done|].
           apply elem_of_neighbors. rewrite Hax. eauto.
        -- right. intros i j ?. congruence.
  - pose proof Hrev as ->%revise_unchanged. apply IH in H; [done|].
    split; [done|]. split; [done|]. intros a b Ha Hb Hab.
    destruct (Harcs a b Ha Hb Hab) as [[?|?]%elem_of_cons|Hcons]; [|by left|by right].
    simplify_eq. right. by eapply arc_consistent_after_revise.
Qed.

Lemma ac3_invariant_initial d : dom d = variables c → ac3_invariant c (all_arcs d) d.
Proof.
  intros Hdom. split; [done|]. split.
  - apply Forall_forall. intros [x y] H%elem_of_all_arcs. by rewrite Hdom in H.
  - intros x y Hx Hy Hxy. left. apply elem_of_all_arcs. by rewrite Hdom.
Qed.

(** On a store whose arcs are all consistent [revise] removes nothing. *)
Lemma revise_noop d x y :
  valid_arc c (x, y) → arc_consistent c d x y → revise c d x y = Ok (false, d).
Proof.
  intros (Hx & Hy & Hxy) Hcons. simpl in *. unfold revise, overlaps.
  rewrite decide_True by done. simpl.
  destruct (overlap_table c x y) as [[i j]|] eqn:Hij; [|done].
  destruct (Hcons i j Hij) as (sx & sy & Hsx & Hsy & Hw).
  rewrite (proj2 (domains_get_Ok d x sx) Hsx). simpl.
  apply revise_loop_noop with (sy := sy); [done|].
  intros w ?%elem_of_elements. by apply Hw.
Qed.

Lemma ac3_loop_stable d :
  (∀ x y, valid_arc c (x, y) → arc_consistent c d x y) →
  ∀ q fuel, Forall (valid_arc c) q → length q ≤ fuel →
    ac3_loop c fuel q d = Ok (true, d).
Proof.
  intros Hcons. induction q as [|[x y] q IH]; intros fuel Hq Hfuel; [by destruct fuel|].
  apply Forall_cons in Hq as [Hxy Hq]. destruct fuel as [|fuel]; simpl in *; [lia|].
  rewrite revise_noop by auto. simpl. apply IH; [done|lia].
Qed.
End ac3_invariant.

(** A [False] from the loop comes with a domain that a revision emptied. *)
Lemma ac3_loop_false c : ∀ fuel q d d',
  ac3_loop c fuel q d = Ok (false, d') →
  ∃ x sx, d !! x = Some sx ∧ sx ≠ ∅ ∧ d' !! x = Some ∅.
Proof.
  induction fuel as [|fuel IH]; intros [|[x y] q] d d' H; simpl in H; try by simplify_eq.
  inv_bind H as st Hrev. destruct st as [[] d1]; simpl in H.
  - apply revise_shrinks in Hrev as (sx & sx' & Hsx & -> & Hsub).
    assert (sx ≠ ∅) as Hne by (intros ->; set_solver).
    inv_bind H as dx Hdx. apply domains_get_Ok in Hdx.
    rewrite lookup_insert_eq in Hdx. simplify_eq. case_decide as Hsize.
    + simplify_eq. apply size_empty_inv, leibniz_equiv in Hsize as ->.
      exists x, sx. by rewrite lookup_insert_eq.
    + apply IH in H as (x0 & s0 & Hs0 & Hne0 & Hd'). destruct (decide (x0 = x)) as [->|?].
      * exists x, sx. done.
      * exists x0, s0. by rewrite lookup_insert_ne in Hs0.
  - apply revise_unchanged in Hrev as ->. by apply IH in H.
Qed.

(** ** [ac3]: soundness, idempotence, and what [False] means *)

Lemma hook_symmetric ws : overlap_symmetric (hook ws).
Proof. intros x y i j. simpl. repeat case_decide; naive_solver. Defined.

Lemma corner_symmetric ws : overlap_symmetric (corner ws).
Proof. intros x y i j. simpl. repeat case_decide; naive_solver. Defined.

(** C2: when [ac3] with the default arcs returns [True], every word left
    in the domain of a variable [x] has, for each neighbour [y] of [x], a
    word in the domain of [y] with the same character at the overlap
    offsets; when it returns [False], some variable's domain is empty. *)
Theorem ac3_sound (c : Crossword) (d : domains) (b : bool) (d' : domains) :
  overlap_symmetric c → dom d = variables c →
  ac3 c d None = Ok (b, d') →
  (b = true → ∀ x y, x ∈ variables c → y ∈ neighbors c x →
     ∃ i j sx sy, overlap_table c x y = Some (i, j)
       ∧ d' !! x = Some sx ∧ d' !! y = Some sy
       ∧ ∀ w, w ∈ sx → ∃ w', w' ∈ sy ∧ agree i j w w')
  ∧ (b = false → ∃ x, d' !! x = Some ∅).
Proof.
  intros Hsym Hdom H. unfold ac3 in H. simpl in H. split; intros ->.
  - apply ac3_loop_sound in H as (_ & _ & Harcs);
      [|done|by apply ac3_invariant_initial].
    intros x y Hx (Hy & Hyx & [[j i] Hij])%elem_of_neighbors.
    apply Hsym in Hij.
    destruct (Harcs x y Hx Hy) as [[]%not_elem_of_nil|Hcons]; [done|].
    destruct (Hcons i j Hij) as (sx & sy & Hsx & Hsy & Hw).
    exists i, j, sx, sy. split; [done|]. split; [done|]. split; [done|].
    intros w Hin. by apply Hw.
  - apply ac3_loop_false in H as (x & sx & _ & _ & Hx). eauto.
Qed.

Lemma ac3_sound_witness :
  (true = true → ∀ x y, x ∈ variables (hook ∅) → y ∈ neighbors (hook ∅) x →
     ∃ i j sx sy, overlap_table (hook ∅) x y = Some (i, j)
       ∧ ({[across2 := {["ab"]}; right3 := {["bxx"]}]} : domains) !! x = Some sx
       ∧ ({[across2 := {["ab"]}; right3 := {["bxx"]}]} : domains) !! y = Some sy
       ∧ ∀ w, w ∈ sx → ∃ w', w' ∈ sy ∧ agree i j w w')
  ∧ (true = false →
     ∃ x, ({[across2 := {["ab"]}; right3 := {["bxx"]}]} : domains) !! x = Some ∅).
Proof.
  apply (ac3_sound (hook ∅) {[across2 := {["ab"; "cd"]}; right3 := {["bxx"]}]}).
  - apply hook_symmetric.
  - vm_compute. reflexivity.
  - vm_compute. reflexivity.
Defined.

(** C8: a second call of [ac3] right after one that returned [True]
    returns [True] again and leaves the domain store as it was. *)
Theorem ac3_idempotent (c : Crossword) (d d' : domains) :
  overlap_symmetric c → dom d = variables c →
  ac3 c d None = Ok (true, d') →
  ac3 c d' None = Ok (true, d').
Proof.
  intros Hsym Hdom H. unfold ac3 in *. simpl in *.
  apply ac3_loop_sound in H as (Hdom' & _ & Harcs);
    [|done|by apply ac3_invariant_initial].
  apply ac3_loop_stable.
  - intros x y (Hx & Hy & Hxy).
    by destruct (Harcs x y Hx Hy Hxy) as [[]%not_elem_of_nil|Hcons].
  - by apply ac3_invariant_initial.
  - unfold ac3_fuel. lia.
Qed.

Lemma ac3_idempotent_witness :
  ac3 (hook ∅) {[across2 := {["ab"]}; right3 := {["bxx"]}]} None
  = Ok (true, {[across2 := {["ab"]}; right3 := {["bxx"]}]}).
Proof.
  apply (ac3_idempotent (hook ∅) {[across2 := {["ab"; "cd"]}; right3 := {["bxx"]}]}).
  - apply hook_symmetric.
  - vm_compute. reflexivity.
  - vm_compute. reflexivity.
Defined.

(** C10: a [False] from [ac3] always comes with a domain that was not
    empty at the call and is empty at the return, so that a revision
    emptied it; a domain that is empty beforehand goes unnoticed: for the
    one-slot crossword with the word list {ab}, node consistency empties
    the slot's domain, the slot has no neighbour, and [ac3] returns
    [True] with that domain still empty. *)
Theorem ac3_false_only_by_emptying :
  (∀ c d d', ac3 c d None = Ok (false, d') →
     ∃ x sx, d !! x = Some sx ∧ sx ≠ ∅ ∧ d' !! x = Some ∅)
  ∧ (∃ d, enforce_node_consistency (init (lone {["ab"]})) = Ok d
       ∧ d !! across3 = Some ∅
       ∧ neighbors (lone {["ab"]}) across3 = []
       ∧ ac3 (lone {["ab"]}) d None = Ok (true, d)).
Proof.
  split.
  - intros c d d' H. unfold ac3 in H. simpl in H. by apply ac3_loop_false in H.
  - exists {[across3 := ∅]}. repeat split; vm_compute; reflexivity.
Qed.

(** ** [consistent] *)

(** A loop whose body either goes on, when [P] holds of the element, or
    returns [False], when it does not. *)
Lemma for_return_spec {A} (body : A → result (option bool)) (P : A → Prop) (l : list A) :
  (∀ x, x ∈ l → body x = Ok None ∧ P x ∨ body x = Ok (Some false) ∧ ¬ P x) →
  for_return body l = Ok None ∧ Forall P l
  ∨ for_return body l = Ok (Some false) ∧ ¬ Forall P l.
Proof.
  induction l as [|x l IH]; intros Hbody; simpl; [by left|].
  destruct (Hbody x) as [[-> HP]|[-> HP]]; [left| |]; simpl.
  - destruct IH as [[-> Hl]|[-> Hl]].
    + intros y ?. apply Hbody. by right.
    + left. by split; [|constructor].
    + right. split; [done|]. by intros [_ ?]%Forall_cons.
  - right. split; [done|]. by intros [? _]%Forall_cons.
Qed.

Lemma count_cons v w l : count v (w :: l) = (if decide (w = v) then 1 else 0) + count v l.
Proof. unfold count. rewrite filter_cons. by case_decide. Qed.

Lemma count_zero v l : count v l = 0 ↔ v ∉ l.
Proof.
  induction l as [|w l IH]; [by split; [intros _ ?%not_elem_of_nil|]|].
  rewrite count_cons, not_elem_of_cons. case_decide; naive_solver lia.
Qed.

Lemma count_one_NoDup l : Forall (λ v, count v l = 1) l ↔ NoDup l.
Proof.
  induction l as [|w l IH]; [by split; constructor|].
  rewrite Forall_cons, NoDup_cons, <-IH, <-count_zero, count_cons, decide_True by done.
  rewrite !Forall_forall. split.
  - intros [Hw Hl]. split; [lia|]. intros v Hv. specialize (Hl v Hv).
    rewrite count_cons in Hl. case_decide; [|done].
    subst. assert (count v l = 0) as ?%count_zero by lia. done.
  - intros [Hw Hl]. split; [lia|]. intros v Hv. rewrite count_cons.
    case_decide; [|by apply Hl]. subst. apply count_zero in Hw. done.
Qed.

Lemma NoDup_values (a : assignment) : NoDup (map_to_list a).*2 ↔ words_distinct a.
Proof.
  split.
  - intros Hnd x y w Hx%elem_of_map_to_list Hy%elem_of_map_to_list.
    apply list_elem_of_lookup in Hx as [n Hn], Hy as [m Hm].
    assert (n = m) as ->.
    { eapply NoDup_lookup; [done| |]; rewrite list_lookup_fmap; [by rewrite Hn|by rewrite Hm]. }
    by simplify_eq.
  - intros Hdist. apply NoDup_fmap_2_strong; [|apply NoDup_map_to_list].
    intros [x w] [y w'] Hx%elem_of_map_to_list Hy%elem_of_map_to_list ?.
    simpl in *. subst. f_equal. by eapply Hdist.
Qed.

Lemma assignment_get_Ok (a : assignment) x w : assignment_get a x = Ok w ↔ a !! x = Some w.
Proof. unfold assignment_get. destruct (a !! x); split; intros; by simplify_eq. Qed.

Lemma get_in_range w : ∀ i, i < String.length w → is_Some (String.get i w).
Proof.
  induction w as [|ch w IH]; intros i Hi; simpl in *; [lia|].
  destruct i; [by eexists|]. apply IH. lia.
Qed.

Section consistent.
Context (c : Crossword) (a : assignment).
Context (Hsym : overlap_symmetric c) (Hrange : overlap_in_range c).
Context (Hdom : dom a ⊆ variables c).

Lemma duplicate_check :
  let values := (map_to_list a).*2 in
  let body := λ v, if decide (count v values ≠ 1) then Ok (Some false) else Ok None in
  for_return body values = Ok None ∧ words_distinct a
  ∨ for_return body values = Ok (Some false) ∧ ¬ words_distinct a.
Proof.
  intros values body. rewrite <-NoDup_values, <-count_one_NoDup.
  apply for_return_spec. intros v _. unfold body. case_decide; [by right|by left].
Qed.

Lemma length_check :
  let body := λ variable,
    w ← assignment_get a variable;
    if decide (var_length variable ≠ String.length w) then Ok (Some false) else Ok None in
  for_return body (keys a) = Ok None ∧ lengths_fit a
  ∨ for_return body (keys a) = Ok (Some false) ∧ ¬ lengths_fit a.
Proof.
  intros body.
  assert (lengths_fit a ↔
          Forall (λ x, ∀ w, a !! x = Some w → String.length w = var_length x) (keys a))
    as ->.
  { rewrite Forall_forall. split.
    - intros Hfit x _ w. apply Hfit.
    - intros Hfit x w Hx. apply Hfit; [|done]. apply elem_of_keys. eauto. }
  apply for_return_spec. intros x [w Hw]%elem_of_keys. unfold body.
  rewrite (proj2 (assignment_get_Ok a x w) Hw). simpl. case_decide as Hlen.
  - right. split; [done|]. intros Hfit. by rewrite (Hfit w) in Hlen.
  - left. split; [done|]. intros w' ?. by simplify_eq.
Qed.

Context (Hfit : lengths_fit a).

Lemma neighbor_check variable wv :
  a !! variable = Some wv →
  let body := λ neighbor,
    if decide (neighbor ∈ dom a) then
      o ← overlaps c variable neighbor;
      '(i, j) ← unpack o;
      wv ← assignment_get a variable;
      wn ← assignment_get a neighbor;
      cv ← str_index wv i;
      cn ← str_index wn j;
      if decide (cv ≠ cn) then Ok (Some false) else Ok None
    else Ok None in
  let P := λ y, ∀ wy, a !! y = Some wy →
    ∃ i j, overlap_table c variable y = Some (i, j) ∧ agree i j wv wy in
  for_return body (neighbors c variable) = Ok None ∧ Forall P (neighbors c variable)
  ∨ for_return body (neighbors c variable) = Ok (Some false)
    ∧ ¬ Forall P (neighbors c variable).
Proof.
  intros Hv body P. apply for_return_spec.
  intros y (Hy & Hne & [[j i] Hij])%elem_of_neighbors. unfold body, P.
  case_decide as Hin; [|left; split; [done|]].
  2:{ intros wy ?. destruct Hin. apply elem_of_dom. eauto. }
  apply elem_of_dom in Hin as [wy Hwy]. apply Hsym in Hij.
  assert (overlaps c variable y = Ok (Some (i, j))) as ->.
  { apply overlaps_Ok. rewrite Hij. split; [|done].
    apply Hdom, elem_of_dom. eauto. }
  simpl. rewrite (proj2 (assignment_get_Ok a variable wv) Hv). simpl.
  rewrite (proj2 (assignment_get_Ok a y wy) Hwy). simpl.
  destruct (Hrange variable y i j) as [Hi Hj]; [apply Hdom, elem_of_dom; eauto|done..|].
  rewrite <-(Hfit _ _ Hv) in Hi. rewrite <-(Hfit _ _ Hwy) in Hj.
  apply get_in_range in Hi as [cv Hcv], Hj as [cy Hcy].
  rewrite (proj2 (str_index_Ok wv i cv) Hcv). simpl.
  rewrite (proj2 (str_index_Ok wy j cy) Hcy). simpl.
  case_decide as Hch.
  - right. split; [done|]. intros H. destruct (H wy Hwy) as (i' & j' & ? & ch & ? & ?).
    simplify_eq.
  - left. split; [done|]. intros wy' ?. simplify_eq. exists i, j. split; [done|].
    by exists cy.
Qed.

Lemma overlap_check :
  let body := λ variable,
    for_return (λ neighbor,
        if decide (neighbor ∈ dom a) then
          o ← overlaps c variable neighbor;
          '(i, j) ← unpack o;
          wv ← assignment_get a variable;
          wn ← assignment_get a neighbor;
          cv ← str_index wv i;
          cn ← str_index wn j;
          if decide (cv ≠ cn) then Ok (Some false) else Ok None
        else Ok None)
      (neighbors c variable) in
  for_return body (keys a) = Ok None ∧ overlaps_agree c a
  ∨ for_return body (keys a) = Ok (Some false) ∧ ¬ overlaps_agree c a.
Proof.
  intros body.
  assert (overlaps_agree c a ↔
          Forall (λ x, ∀ wx, a !! x = Some wx →
            Forall (λ y, ∀ wy, a !! y = Some wy →
              ∃ i j, overlap_table c x y = Some (i, j) ∧ agree i j wx wy)
              (neighbors c x)) (keys a)) as ->.
  { rewrite Forall_forall. split.
    - intros Hag x _ wx Hx. apply Forall_forall. intros y Hy wy Hwy. by eapply Hag.
    - intros Hag x y wx wy Hx Hwy Hy.
      assert (x ∈ keys a) as Hk by (apply elem_of_keys; eauto).
      specialize (Hag x Hk wx Hx). rewrite Forall_forall in Hag. by apply Hag. }
  apply for_return_spec. intros x [wx Hx]%elem_of_keys.
  destruct (neighbor_check x wx Hx) as [[Hr HP]|[Hr HP]].
  - left. split; [done|]. intros wx' ?. by simplify_eq.
  - right. split; [done|]. intros H. apply HP. by apply H.
Qed.
End consistent.

(** C6: on an assignment over the variables of the crossword, [consistent]
    returns normally, and it returns [True] exactly when no two variables
    carry the same word, every word has the length of its variable, and
    every two assigned variables that are neighbours carry the same
    character at their overlap offsets. *)
Theorem consistent_spec (c : Crossword) (a : assignment) :
  overlap_symmetric c → overlap_in_range c → dom a ⊆ variables c →
  ∃ b, consistent c a = Ok b
       ∧ (b = true ↔ words_distinct a ∧ lengths_fit a ∧ overlaps_agree c a).
Proof.
  intros Hsym Hrange Hdom. unfold consistent.
  destruct (duplicate_check a) as [[-> Ha]|[-> Ha]]; simpl; [|exists false; naive_solver].
  destruct (length_check a) as [[-> Hb]|[-> Hb]]; simpl; [|exists false; naive_solver].
  destruct (overlap_check c a Hsym Hrange Hdom Hb) as [[-> Hc]|[-> Hc]]; simpl;
    [exists true|exists false]; naive_solver.
Qed.

Lemma corner_in_range ws : overlap_in_range (corner ws).
Proof.
  intros x y i j Hx Hy. simpl in *.
  apply elem_of_union in Hx as [->%elem_of_singleton| ->%elem_of_singleton];
    apply elem_of_union in Hy as [->%elem_of_singleton| ->%elem_of_singleton].
  all: case_decide; intros ?; simplify_eq; simpl; lia.
Defined.

Lemma consistent_spec_witness :
  ∃ b, consistent (corner ∅) {[across3 := "cat"; down3 := "car"]} = Ok b
       ∧ (b = true ↔ words_distinct {[across3 := "cat"; down3 := "car"]}
                      ∧ lengths_fit {[across3 := "cat"; down3 := "car"]}
                      ∧ overlaps_agree (corner ∅) {[across3 := "cat"; down3 := "car"]}).
Proof.
  apply (consistent_spec (corner ∅) {[across3 := "cat"; down3 := "car"]}).
  - apply corner_symmetric.
  - apply corner_in_range.
  - apply (bool_decide_unpack (dom _ ⊆ _)). vm_compute. exact I.
Defined.

(** ** Explicit arcs *)

(** C4: with the arcs given, [queue] is bound to the class [deque] and not
    to a deque: the first [append] raises [TypeError], and for an empty
    list of arcs [len(queue)] does; no arc is ever revised. *)
Theorem ac3_explicit_arcs_raise (c : Crossword) (d : domains)
    (arcs : list (variable * variable)) :
  ac3 c d (Some arcs) = Raise TypeError.
Proof. by destruct arcs. Qed.

(** ** The heuristics *)

(** C5: two unassigned slots with domains of the same size and no
    neighbour: the loop over the tied variables keeps [var = None], which
    is what the call returns. *)
Theorem select_unassigned_variable_returns_None :
  select_unassigned_variable (rows {["cat"; "dog"]})
    {[across3 := {["cat"; "dog"]}; low3 := {["cat"; "dog"]}]} ∅ = Ok None.
Proof. vm_compute. reflexivity. Qed.

(** C3: in the crossword [hook] with the words ab, cd, bxx, byy, dzz, after
    node and arc consistency, the word ab of the slot across rules out one
    word of the slot down and cd rules out two; [order_domain_values]
    puts cd first. *)
Theorem order_domain_values_most_eliminating_first :
  let c := hook {["ab"; "cd"; "bxx"; "byy"; "dzz"]} in
  let d : domains := {[across2 := {["ab"; "cd"]}; right3 := {["bxx"; "byy"; "dzz"]}]} in
  (d0 ← enforce_node_consistency (init c); ac3 c d0 None) = Ok (true, d)
  ∧ order_domain_values c d across2 ∅ = Ok ["cd"; "ab"]
  ∧ elimination_score c d across2 ∅ "ab" = 1
  ∧ elimination_score c d across2 ∅ "cd" = 2.
Proof. repeat split; vm_compute; reflexivity. Qed.

(** ** [solve] *)

(** C1: for two three-letter slots that do not cross and the words cat and
    dog, [select_unassigned_variable] hands [None] to [backtrack], and the
    lookup [self.domains[None]] in [order_domain_values] raises. *)
Theorem solve_raises_KeyError :
  solve (rows {["cat"; "dog"]}) = Raise KeyError.
Proof. vm_compute. reflexivity. Qed.


(** ** [select_unassigned_variable] when it returns a variable *)

Lemma mapM_total {A B} (f : A → result B) (g : A → B) (l : list A) :
  (∀ x, x ∈ l → f x = Ok (g x)) → mapM f l = Ok (g <$> l).
Proof.
  induction l as [|x l IH]; intros Hf; simpl; [done|].
  rewrite Hf by left. simpl. rewrite IH; [done|]. intros y ?. apply Hf. by right.
Qed.

Lemma lowest_size_le (vv : list (variable * N)) : ∀ l0,
  let l := foldl (λ l (p : variable * N), if (p.2 <? l)%N then p.2 else l) l0 vv in
  (l ≤ l0)%N ∧ ∀ p, p ∈ vv → (l ≤ p.2)%N.
Proof.
  induction vv as [|q vv IH]; intros l0; simpl.
  - split; [lia|]. by intros p ?%not_elem_of_nil.
  - destruct (IH (if (q.2 <? l0)%N then q.2 else l0)) as [Hle Hall].
    destruct (N.ltb_spec q.2 l0); (split; [lia|]);
      intros p [->|?]%elem_of_cons; auto; lia.
Qed.

Lemma highest_degree c (lowest : list variable) : ∀ n0 r0 n v,
  foldl (λ (st : nat * option variable) variable,
      if decide (st.1 < length (neighbors c variable))
      then (length (neighbors c variable), Some variable)
      else st) (n0, r0) lowest = (n, Some v) →
  (r0 = Some v ∧ n = n0 ∨ v ∈ lowest ∧ n = length (neighbors c v))
  ∧ n0 ≤ n ∧ ∀ u, u ∈ lowest → length (neighbors c u) ≤ n.
Proof.
  induction lowest as [|x l IH]; intros n0 r0 n v H; simpl in H.
  - simplify_eq. split; [by left|]. split; [done|]. by intros u ?%not_elem_of_nil.
  - case_decide as Hlt; simpl in *; apply IH in H as (Hv & Hle & Hall).
    + split; [|split; [lia|]].
      * right. destruct Hv as [[? ->]|[? ->]]; [simplify_eq; by split; [left|]|].
        by split; [right|].
      * intros u [->|?]%elem_of_cons; [lia|auto].
    + split; [|split; [lia|]].
      * destruct Hv as [?|[? ->]]; [by left|right]. by split; [right|].
      * intros u [->|?]%elem_of_cons; [lia|auto].
Qed.

(** Whenever [select_unassigned_variable] returns a variable, that variable
    is unassigned, no unassigned variable has fewer words left, and none of
    those with as few words has more neighbours. *)
Lemma select_unassigned_variable_Some c (d : domains) (a : assignment) v :
  select_unassigned_variable c d a = Ok (Some v) →
  v ∈ dom d ∧ v ∉ dom a
  ∧ (∀ u, u ∈ dom d → u ∉ dom a → size (d !!! v) ≤ size (d !!! u))
  ∧ (∀ u, u ∈ dom d → u ∉ dom a → size (d !!! u) = size (d !!! v) →
       length (neighbors c u) ≤ length (neighbors c v)).
Proof.
  unfold select_unassigned_variable.
  set (pv := filter (λ x, x ∉ keys a) (keys d)).
  assert (∀ u, u ∈ pv ↔ u ∈ dom d ∧ u ∉ dom a) as Hpv.
  { intros u. unfold pv. rewrite list_elem_of_filter, !elem_of_keys, !elem_of_dom. tauto. }
  rewrite (mapM_total _ (λ u, (u, N.of_nat (size (d !!! u))))).
  2:{ intros u [[s Hs]%elem_of_dom _]%Hpv.
      rewrite (proj2 (domains_get_Ok d u s) Hs). simpl.
      by rewrite (lookup_total_correct _ _ _ Hs). }
  simpl. set (vv := (λ u, (u, N.of_nat (size (d !!! u)))) <$> pv).
  destruct (lowest_size_le vv 999999999%N) as [_ Hmin].
  set (l := foldl _ _ vv) in *.
  set (lowest := (filter (λ p : variable * N, p.2 = l) vv).*1).
  assert (∀ u, u ∈ lowest ↔ u ∈ pv ∧ N.of_nat (size (d !!! u)) = l) as Hlow.
  { intros u. unfold lowest, vv. rewrite list_elem_of_fmap. split.
    - intros ([u' n] & -> & [Hn (u'' & ? & ?)%list_elem_of_fmap]%list_elem_of_filter).
      by simplify_eq.
    - intros [? ?]. exists (u, N.of_nat (size (d !!! u))). split; [done|].
      apply list_elem_of_filter. split; [done|]. apply list_elem_of_fmap. eauto. }
  intros H.
  assert (v ∈ lowest ∧ ∀ u, u ∈ lowest → length (neighbors c u) ≤ length (neighbors c v))
    as [Hv Hdeg].
  { assert (lowest = [v] ∨
            (foldl (λ (st : nat * option variable) variable,
                if decide (st.1 < length (neighbors c variable))
                then (length (neighbors c variable), Some variable)
                else st) (0, None) lowest).2 = Some v) as [->|Hfold].
    { destruct lowest as [|x [|y lowest']]; injection H as H; [by right|left|by right].
      by rewrite H. }
    - split; [left|]. by intros u ->%list_elem_of_singleton.
    - destruct (foldl _ (0, None) lowest) as [n r] eqn:Hn. simpl in Hfold. subst r.
      apply highest_degree in Hn as ([[? _]|[? ->]] & _ & Hall); done. }
  apply Hlow in Hv as [[? ?]%Hpv Hsize]. split; [done|]. split; [done|]. split.
  - intros u Hu Hua. assert ((u, N.of_nat (size (d !!! u))) ∈ vv) as Hin.
    { apply list_elem_of_fmap. exists u. split; [done|]. apply Hpv. done. }
    apply Hmin in Hin. simpl in Hin. lia.
  - intros u Hu Hua Heq. apply Hdeg, Hlow. split; [by apply Hpv|]. by rewrite Heq.
Qed.

(** ** [backtrack] and [solve] *)

Lemma for_return_Some {A R} (body : A → result (option R)) (l : list A) r :
  for_return body l = Ok (Some r) → ∃ x, x ∈ l ∧ body x = Ok (Some r).
Proof.
  induction l as [|x l IH]; intros H; simpl in H; [done|].
  inv_bind H as o Ho. destruct o as [r'|].
  - simplify_eq. exists x. split; [left|done].
  - destruct (IH H) as (y & ? & ?). exists y. split; [by right|done].
Qed.

Lemma for_return_not_OutOfFuel {A R} (body : A → result (option R)) (l : list A) :
  (∀ x, x ∈ l → body x ≠ OutOfFuel) → for_return body l ≠ OutOfFuel.
Proof.
  induction l as [|x l IH]; intros Hbody; simpl; [done|].
  apply bind_not_OutOfFuel; [apply Hbody; left|]. intros [r|] _; [done|].
  apply IH. intros y ?. apply Hbody. by right.
Qed.

Lemma mapM_not_OutOfFuel {A B} (f : A → result B) (l : list A) :
  (∀ x, f x ≠ OutOfFuel) → mapM f l ≠ OutOfFuel.
Proof.
  intros Hf. induction l as [|x l IH]; simpl; [done|].
  apply bind_not_OutOfFuel; [apply Hf|]. intros y _.
  apply bind_not_OutOfFuel; [apply IH|]. done.
Qed.

Lemma overlaps_not_OutOfFuel c x y : overlaps c x y ≠ OutOfFuel.
Proof. unfold overlaps. by case_decide. Qed.

Lemma unpack_not_OutOfFuel o : unpack o ≠ OutOfFuel.
Proof. by destruct o. Qed.

Lemma assignment_get_not_OutOfFuel (a : assignment) x : assignment_get a x ≠ OutOfFuel.
Proof. unfold assignment_get. by destruct (a !! x). Qed.

Local Tactic Notation "not_out_of_fuel" :=
  repeat first
    [ apply bind_not_OutOfFuel; [|intros ? _]
    | apply foldM_not_OutOfFuel; intros ? ?
    | apply mapM_not_OutOfFuel; intros ?
    | apply for_return_not_OutOfFuel; intros ? _
    | apply domains_get_not_OutOfFuel
    | apply domains_remove_not_OutOfFuel
    | apply assignment_get_not_OutOfFuel
    | apply overlaps_not_OutOfFuel
    | apply unpack_not_OutOfFuel
    | apply str_index_not_OutOfFuel
    | case_decide
    | case_match
    | done ].

Lemma consistent_not_OutOfFuel c a : consistent c a ≠ OutOfFuel.
Proof. unfold consistent. not_out_of_fuel. Qed.

Lemma order_domain_values_not_OutOfFuel c d var a :
  order_domain_values c d var a ≠ OutOfFuel.
Proof. unfold order_domain_values. not_out_of_fuel. Qed.

Lemma select_unassigned_variable_not_OutOfFuel c d a :
  select_unassigned_variable c d a ≠ OutOfFuel.
Proof. unfold select_unassigned_variable. not_out_of_fuel. Qed.

Lemma enforce_node_consistency_not_OutOfFuel d : enforce_node_consistency d ≠ OutOfFuel.
Proof. destruct (enforce_node_consistency_Ok d) as (d' & -> & _). done. Qed.

Lemma ac3_loop_dom c : ∀ fuel q d b d',
  ac3_loop c fuel q d = Ok (b, d') → dom d' = dom d.
Proof.
  induction fuel as [|fuel IH]; intros [|[x y] q] d b d' H; simpl in H; try by simplify_eq.
  inv_bind H as st Hrev. destruct st as [[] d1]; simpl in H.
  - apply revise_shrinks in Hrev as (sx & sx' & Hsx & -> & _).
    assert (dom (<[x := sx']> d) = dom d) as Hdom.
    { rewrite dom_insert_L. apply elem_of_dom_2 in Hsx. set_solver. }
    inv_bind H as dx Hdx. case_decide; [by simplify_eq|].
    apply IH in H. by rewrite H.
  - apply revise_unchanged in Hrev as ->. by apply IH in H.
Qed.

Lemma dom_init c : dom (init c) = variables c.
Proof.
  apply set_eq. intros v. unfold init. rewrite elem_of_dom. split.
  - intros [s (y & ? & ?)%lookup_set_to_map]; [by simplify_eq|].
    intros y y' _ _ ?. by simplify_eq.
  - intros Hv. exists (words c). apply lookup_set_to_map; [|by exists v].
    intros y y' _ _ ?. by simplify_eq.
Qed.

Section backtrack.
Context (c : Crossword) (d : domains).

(** An assignment that [backtrack] returns fills every variable of the
    store; it is the one passed in or one that [consistent] accepted. *)
Lemma backtrack_Some : ∀ fuel (a r : assignment),
  backtrack c d fuel a = Ok (Some r) →
  size d = size r ∧ dom r ⊆ dom a ∪ dom d ∧ (r = a ∨ consistent c r = Ok true).
Proof.
  induction fuel as [|fuel IH]; intros a r H; simpl in H; [done|].
  destruct (assignment_complete d a) eqn:Hcomplete.
  { simplify_eq. apply bool_decide_eq_true in Hcomplete. split; [done|].
    split; [set_solver|by left]. }
  inv_bind H as var Hvar. destruct var as [variable|]; [|done].
  apply select_unassigned_variable_Some in Hvar as (Hd & _).
  inv_bind H as values Hvalues.
  apply for_return_Some in H as (word & _ & H).
  inv_bind H as ok Hok. destruct ok; [|done].
  apply IH in H as (Hsize & Hdom & Hr). split; [done|]. split.
  - rewrite dom_insert_L in Hdom. set_solver.
  - right. by destruct Hr as [->|?].
Qed.

(** The recursion is as deep as there are unassigned variables. *)
Lemma backtrack_enough_fuel : ∀ fuel (a : assignment),
  dom a ⊆ dom d → size d < fuel + size a → backtrack c d fuel a ≠ OutOfFuel.
Proof.
  induction fuel as [|fuel IH]; intros a Hdom Hfuel.
  { apply subseteq_size in Hdom. rewrite !size_dom in Hdom. lia. }
  simpl. destruct (assignment_complete d a) eqn:Hcomplete; [done|].
  apply bind_not_OutOfFuel; [apply select_unassigned_variable_not_OutOfFuel|].
  intros [variable|] Hvar; [|done].
  apply select_unassigned_variable_Some in Hvar as (Hd & Ha & _).
  apply bind_not_OutOfFuel; [apply order_domain_values_not_OutOfFuel|].
  intros values _. apply for_return_not_OutOfFuel. intros word _.
  apply bind_not_OutOfFuel; [apply consistent_not_OutOfFuel|].
  intros [] _; [|done]. apply IH.
  - rewrite dom_insert_L. set_solver.
  - rewrite map_size_insert_None; [lia|]. by apply not_elem_of_dom.
Qed.
End backtrack.

Lemma solve_Some c r :
  solve c = Ok (Some r) → dom r = variables c ∧ consistent c r = Ok true.
Proof.
  unfold solve. intros H. inv_bind H as d1 Hd1. inv_bind H as st Hac3.
  destruct st as [b d2]. cbv beta iota in H.
  destruct (enforce_node_consistency_Ok (init c)) as (d1' & Hd1' & Hdom1 & _).
  rewrite Hd1 in Hd1'. injection Hd1' as <-.
  unfold ac3 in Hac3. simpl in Hac3. apply ac3_loop_dom in Hac3.
  assert (dom d2 = variables c) as Hdom2 by by rewrite Hac3, Hdom1, dom_init.
  apply backtrack_Some in H as (Hsize & Hsub & Hr). split.
  - rewrite <-Hdom2. apply set_subseteq_size_eq; [set_solver|].
    rewrite !size_dom. lia.
  - destruct Hr as [->|?]; [|done]. vm_compute. reflexivity.
Qed.

Lemma solve_not_OutOfFuel c : solve c ≠ OutOfFuel.
Proof.
  unfold solve.
  apply bind_not_OutOfFuel; [apply enforce_node_consistency_not_OutOfFuel|].
  intros d1 _. apply bind_not_OutOfFuel.
  { by destruct (ac3_loop_enough_fuel c (ac3_fuel c (all_arcs d1) d1) (all_arcs d1) d1). }
  intros [b d2] _. cbv beta iota. apply backtrack_enough_fuel; [set_solver|].
  rewrite map_size_empty. lia.
Qed.

Lemma solve_no_variables ws table :
  solve {| variables := ∅; words := ws; overlap_table := table |} = Ok (Some ∅).
Proof. reflexivity. Qed.

Lemma ac3_loop_shrinks c : ∀ fuel q d b d',
  ac3_loop c fuel q d = Ok (b, d') →
  ∀ x s', d' !! x = Some s' → ∃ s, d !! x = Some s ∧ s' ⊆ s.
Proof.
  induction fuel as [|fuel IH]; intros [|[x y] q] d b d' H; simpl in H;
    try (by simplify_eq); try (simplify_eq; by eauto).
  inv_bind H as st Hrev. destruct st as [[] d1]; simpl in H.
  - apply revise_shrinks in Hrev as (sx & sx' & Hsx & -> & [Hsub _]).
    assert (∀ z s', <[x := sx']> d !! z = Some s' → ∃ s, d !! z = Some s ∧ s' ⊆ s) as Hstep.
    { intros z s'. destruct (decide (z = x)) as [->|?].
      - rewrite lookup_insert_eq. intros ?. simplify_eq. eauto.
      - rewrite lookup_insert_ne by done. eauto. }
    inv_bind H as dx Hdx. case_decide; [by simplify_eq|].
    intros z s' Hz. destruct (IH _ _ _ _ H z s' Hz) as (s1 & Hs1 & ?).
    destruct (Hstep z s1 Hs1) as (s & ? & ?). exists s. split; [done|set_solver].
  - apply revise_unchanged in Hrev as ->. by eapply IH.
Qed.

(** ** Further properties of the solver *)

(** X1: [solve] comes to an end for every crossword: it returns or raises. *)
Theorem solve_terminates (c : Crossword) :
  (∃ r, solve c = Ok r) ∨ (∃ e, solve c = Raise e).
Proof.
  pose proof (solve_not_OutOfFuel c). destruct (solve c) as [r|e|]; [left|right|done]; eauto.
Qed.

(** X2: an assignment returned by [solve] gives a word to every variable
    of the crossword and to nothing else, and [consistent] accepts it. *)
Theorem solve_returns_complete_consistent (c : Crossword) (r : assignment) :
  solve c = Ok (Some r) → dom r = variables c ∧ consistent c r = Ok true.
Proof. apply solve_Some. Qed.

Lemma solve_returns_complete_consistent_witness :
  dom ({[across3 := "car"; down3 := "cat"]} : assignment)
  = variables (corner {["cat"; "car"; "dog"]})
  ∧ consistent (corner {["cat"; "car"; "dog"]}) {[across3 := "car"; down3 := "cat"]} = Ok true.
Proof.
  apply (solve_returns_complete_consistent (corner {["cat"; "car"; "dog"]})).
  vm_compute. reflexivity.
Defined.

(** X3: a crossword without variables is solved by the empty assignment. *)
Theorem solve_without_variables (ws : gset string)
    (table : variable → variable → option (nat * nat)) :
  solve {| variables := ∅; words := ws; overlap_table := table |} = Ok (Some ∅).
Proof. apply solve_no_variables. Qed.

(** Two end-to-end runs on [corner]: with the words cat and dog
    the two slots of [corner] cannot be filled; with cat, car and dog they
    are filled with two different words that start with the same letter. *)
Theorem solve_scenarios :
  solve (corner {["cat"; "dog"]}) = Ok None
  ∧ ∃ w1 w2, solve (corner {["cat"; "car"; "dog"]}) = Ok (Some {[across3 := w1; down3 := w2]})
             ∧ w1 ≠ w2 ∧ is_Some (String.get 0 w1) ∧ String.get 0 w1 = String.get 0 w2.
Proof.
  split; [vm_compute; reflexivity|]. exists "car", "cat".
  split; [vm_compute; reflexivity|]. split; [done|]. split; [by eexists|done].
Qed.

(** X5: a variable returned by [select_unassigned_variable] is unassigned,
    has the fewest words left among the unassigned variables, and has the
    most neighbours among those with as few words. *)
Theorem select_unassigned_variable_spec (c : Crossword) (d : domains)
    (a : assignment) (v : variable) :
  select_unassigned_variable c d a = Ok (Some v) →
  v ∈ dom d ∧ v ∉ dom a
  ∧ (∀ u, u ∈ dom d → u ∉ dom a → size (d !!! v) ≤ size (d !!! u))
  ∧ (∀ u, u ∈ dom d → u ∉ dom a → size (d !!! u) = size (d !!! v) →
       length (neighbors c u) ≤ length (neighbors c v)).
Proof. apply select_unassigned_variable_Some. Qed.

Lemma select_unassigned_variable_spec_witness :
  select_unassigned_variable (hook ∅)
    {[across2 := {["ab"; "cd"]}; right3 := {["bxx"; "byy"; "dzz"]}]} ∅ = Ok (Some across2)
  ∧ across2 ∈ dom ({[across2 := {["ab"; "cd"]}; right3 := {["bxx"; "byy"; "dzz"]}]} : domains).
Proof.
  split; [vm_compute; reflexivity|].
  apply (select_unassigned_variable_spec (hook ∅)
           {[across2 := {["ab"; "cd"]}; right3 := {["bxx"; "byy"; "dzz"]}]} ∅ across2).
  vm_compute. reflexivity.
Defined.

(** X6: [ac3] keeps the variables of the store and only takes words away. *)
Theorem ac3_only_shrinks (c : Crossword) (d : domains) (b : bool) (d' : domains) :
  ac3 c d None = Ok (b, d') →
  dom d' = dom d ∧ ∀ x s', d' !! x = Some s' → ∃ s, d !! x = Some s ∧ s' ⊆ s.
Proof.
  unfold ac3. simpl. intros H. split.
  - by apply ac3_loop_dom in H.
  - by eapply ac3_loop_shrinks.
Qed.

Lemma ac3_only_shrinks_witness :
  dom ({[across2 := {["ab"]}; right3 := {["bxx"]}]} : domains)
  = dom ({[across2 := {["ab"; "cd"]}; right3 := {["bxx"]}]} : domains)
  ∧ ∀ x s', ({[across2 := {["ab"]}; right3 := {["bxx"]}]} : domains) !! x = Some s' →
      ∃ s, ({[across2 := {["ab"; "cd"]}; right3 := {["bxx"]}]} : domains) !! x = Some s
           ∧ s' ⊆ s.
Proof.
  apply (ac3_only_shrinks (hook ∅) _ true). vm_compute. reflexivity.
Defined.

(** ** The order that [order_domain_values] produces *)

Section sorted.
Context {A : Type} (key : A → Z).

Lemma insert_by_key_Permutation x (l : list A) : insert_by_key key x l ≡ₚ x :: l.
Proof.
  induction l as [|y l IH]; simpl; [done|].
  destruct (key y <? key x)%Z; [|done]. rewrite IH. apply Permutation_swap.
Qed.

Lemma sorted_Permutation (l : list A) : sorted key l ≡ₚ l.
Proof.
  unfold sorted. induction l as [|x l IH]; simpl; [done|].
  by rewrite insert_by_key_Permutation, IH.
Qed.

Lemma insert_by_key_StronglySorted x (l : list A) :
  StronglySorted (λ p q, (key p ≤ key q)%Z) l →
  StronglySorted (λ p q, (key p ≤ key q)%Z) (insert_by_key key x l).
Proof.
  induction 1 as [|y l Hl IH Hy]; simpl; [by repeat constructor|].
  destruct (Z.ltb_spec (key y) (key x)).
  - constructor; [done|]. rewrite insert_by_key_Permutation.
    constructor; [lia|done].
  - constructor; [by constructor|]. constructor; [done|].
    eapply Forall_impl; [done|]. simpl. intros. lia.
Qed.

Lemma sorted_StronglySorted (l : list A) :
  StronglySorted (λ p q, (key p ≤ key q)%Z) (sorted key l).
Proof.
  unfold sorted. induction l as [|x l IH]; simpl; [constructor|].
  by apply insert_by_key_StronglySorted.
Qed.
End sorted.

Lemma StronglySorted_fmap_on {A B} (R1 : relation A) (R2 : relation B) (P : A → Prop)
    (f : A → B) (l : list A) :
  (∀ p q, P p → P q → R1 p q → R2 (f p) (f q)) →
  Forall P l → StronglySorted R1 l → StronglySorted R2 (f <$> l).
Proof.
  intros HR HP. induction 1 as [|x l Hl IH Hx]; simpl; [constructor|].
  apply Forall_cons in HP as [HPx HP]. constructor; [by apply IH|].
  apply Forall_fmap, Forall_forall. intros y Hy. rewrite Forall_forall in Hx, HP. apply HR; auto.
Qed.

Lemma mapM_Ok {A B} (f : A → result B) (l : list A) : ∀ ys,
  mapM f l = Ok ys → Forall2 (λ x y, f x = Ok y) l ys.
Proof.
  induction l as [|x l IH]; intros ys H; simpl in H; [simplify_eq; constructor|].
  inv_bind H as y Hy. inv_bind H as ys' Hys. simplify_eq. constructor; auto.
Qed.

Section order_domain_values.
Context (c : Crossword) (d : domains) (var : variable) (a : assignment).

Lemma options_after_spec word i j (l : list string) : ∀ n0 n,
  foldM (λ (n : Z) (option : string),
      cw ← str_index word i;
      co ← str_index option j;
      Ok (if decide (cw ≠ co) then (n + 1)%Z else n)) n0 l = Ok n →
  n = (n0 + Z.of_nat (length (filter (λ w', String.get i word ≠ String.get j w') l)))%Z.
Proof.
  induction l as [|w l IH]; intros n0 n H; simpl in H; [simplify_eq; simpl; lia|].
  inv_bind H as n1 Hn1. inv_bind Hn1 as cw Hcw. inv_bind Hn1 as co Hco.
  apply str_index_Ok in Hcw, Hco. apply IH in H as ->. rewrite filter_cons.
  rewrite Hcw, Hco. simplify_eq.
  destruct (decide (cw ≠ co)), (decide (Some cw ≠ Some co)); simpl; try lia; naive_solver.
Qed.

(** The number the code calls [eliminations] and the elimination score add
    up to the number of words in the domains of the unassigned neighbours. *)
Lemma eliminations_spec word (nbrs : list variable) : ∀ e0 e,
  foldM (λ (eliminations : Z) neighbor,
      if decide (neighbor ∈ dom a) then Ok eliminations
      else
        o ← overlaps c var neighbor;
        '(i, j) ← unpack o;
        dn ← domains_get d neighbor;
        let options_before := Z.of_nat (size dn) in
        options_after ← foldM (λ (n : Z) (option : string),
            cw ← str_index word i;
            co ← str_index option j;
            Ok (if decide (cw ≠ co) then (n + 1)%Z else n))
          0%Z (elements dn);
        Ok (eliminations + (options_before - options_after))%Z) e0 nbrs = Ok e →
  (e + Z.of_nat (sum_list_with
         (λ n, match overlap_table c var n, d !! n with
               | Some (i, j), Some dn =>
                   length (filter (λ w', String.get i word ≠ String.get j w') (elements dn))
               | _, _ => 0%nat
               end) (filter (λ n, n ∉ dom a) nbrs))
   = e0 + Z.of_nat (sum_list_with (λ n, size (d !!! n)) (filter (λ n, n ∉ dom a) nbrs)))%Z.
Proof.
  induction nbrs as [|n nbrs IH]; intros e0 e H; simpl in H; [simplify_eq; simpl; lia|].
  inv_bind H as e1 He1. apply IH in H. rewrite !filter_cons.
  case_decide as Hin.
  { simplify_eq. rewrite decide_False by naive_solver. done. }
  rewrite decide_True by done. simpl.
  inv_bind He1 as o Ho. apply overlaps_Ok in Ho as (_ & _ & _ & ->).
  inv_bind He1 as ij Hij. destruct ij as [i j].
  destruct (overlap_table c var n) as [ij|]; [|done]. simpl in Hij. simplify_eq.
  inv_bind He1 as dn Hdn. apply domains_get_Ok in Hdn.
  inv_bind He1 as after Hafter. apply options_after_spec in Hafter as ->. simplify_eq.
  rewrite Hdn, (lookup_total_correct _ _ _ Hdn). lia.
Qed.

Lemma order_domain_values_Ok l :
  order_domain_values c d var a = Ok l →
  l ≡ₚ elements (d !!! var)
  ∧ StronglySorted (λ w1 w2, elimination_score c d var a w2 ≤ elimination_score c d var a w1) l.
Proof.
  unfold order_domain_values. intros H. inv_bind H as dv Hdv.
  apply domains_get_Ok in Hdv. rewrite (lookup_total_correct _ _ _ Hdv).
  inv_bind H as vv Hvv. simplify_eq. apply mapM_Ok in Hvv.
  set (K := sum_list_with (λ n, size (d !!! n)) (filter (λ n, n ∉ dom a) (neighbors c var))).
  assert (vv.*1 = elements dv ∧
          Forall (λ p, (p.2 + Z.of_nat (elimination_score c d var a p.1) = Z.of_nat K)%Z) vv)
    as [Hfst Hscore].
  { induction Hvv as [|w p ws ps Hp _ [IH1 IH2]]; [by split; [|constructor]|].
    inv_bind Hp as e He. simplify_eq. simpl. split; [by f_equal|].
    constructor; [|done]. apply eliminations_spec in He. simpl.
    unfold elimination_score, K. lia. }
  split.
  - by rewrite sorted_Permutation, Hfst.
  - apply StronglySorted_fmap_on
      with (R1 := λ p q, (p.2 ≤ q.2)%Z)
           (P := λ p, (p.2 + Z.of_nat (elimination_score c d var a p.1) = Z.of_nat K)%Z).
    + intros p q ???. lia.
    + by rewrite sorted_Permutation.
    + apply sorted_StronglySorted.
Qed.
End order_domain_values.

(** X7: whenever [order_domain_values] returns, its result lists the words
    of the variable's domain, each once, in descending order of elimination
    score: no word stands before one that rules out more. *)
Theorem order_domain_values_descending (c : Crossword) (d : domains) (var : variable)
    (a : assignment) (l : list string) :
  order_domain_values c d var a = Ok l →
  l ≡ₚ elements (d !!! var)
  ∧ StronglySorted (λ w1 w2, elimination_score c d var a w2 ≤ elimination_score c d var a w1) l.
Proof. apply order_domain_values_Ok. Qed.

Lemma order_domain_values_descending_witness :
  ["cd"; "ab"] ≡ₚ elements
    (({[across2 := {["ab"; "cd"]}; right3 := {["bxx"; "byy"; "dzz"]}]} : domains) !!! across2)
  ∧ StronglySorted
      (λ w1 w2,
         elimination_score (hook ∅)
           {[across2 := {["ab"; "cd"]}; right3 := {["bxx"; "byy"; "dzz"]}]} across2 ∅ w2
         ≤ elimination_score (hook ∅)
             {[across2 := {["ab"; "cd"]}; right3 := {["bxx"; "byy"; "dzz"]}]} across2 ∅ w1)
      ["cd"; "ab"].
Proof.
  apply (order_domain_values_descending (hook ∅)). vm_compute. reflexivity.
Defined.

(** * More of [CrosswordCreator] *)

(** ** [revise] on its own *)

Lemma bind_Ok_eq {A B} (m : result A) (a : A) (k : A → result B) (r : result B) :
  m = Ok a → k a = r → m ≫= k = r.
Proof. by intros -> <-. Qed.

Section revise_outcome.
Context (i j : nat).

#[local] Instance readable_dec w w' : Decision (readable i j w w').
Proof. unfold readable. apply _. Defined.

(** The counting loop either reads every pair or stops at the first pair
    it cannot read. *)
Lemma count_loop_outcome v1 (l : list string) : ∀ n0,
  Forall (readable i j v1) l ∧ (∃ n, foldM (count_body i j v1) n0 l = Ok n)
  ∨ ¬ Forall (readable i j v1) l ∧ foldM (count_body i j v1) n0 l = Raise IndexError.
Proof.
  induction l as [|v2 l IH]; intros n0; simpl; [left; eauto|].
  destruct (String.get i v1) as [a|] eqn:Ha.
  2:{ right. split; [|unfold str_index; by rewrite Ha].
      intros [[[? ?] _] _]%Forall_cons. congruence. }
  destruct (String.get j v2) as [b|] eqn:Hb.
  2:{ right. split; [|unfold str_index; by rewrite Ha, Hb].
      intros [[_ [? ?]] _]%Forall_cons. congruence. }
  assert (readable i j v1 v2) as Hr by (split; eauto).
  assert (count_body i j v1 n0 v2 = Ok (if decide (a = b) then S n0 else n0)) as Hstep.
  { apply (bind_Ok_eq _ a); [by apply str_index_Ok|].
    apply (bind_Ok_eq _ b); [by apply str_index_Ok|done]. }
  destruct (IH (if decide (a = b) then S n0 else n0)) as [[Hl [n Hn]]|[Hl Hn]].
  - left. split; [by constructor|]. exists n. by apply (bind_Ok_eq _ _ _ _ Hstep).
  - right. split; [by intros [_ ?]%Forall_cons|]. by apply (bind_Ok_eq _ _ _ _ Hstep).
Qed.

Context (x y : variable) (Hxy : x ≠ y).

Lemma revise_loop_outcome sy (l : list string) : ∀ (r : bool) (d1 : domains) s,
  d1 !! x = Some s → d1 !! y = Some sy → NoDup l → (∀ w, w ∈ l → w ∈ s) →
  Forall (λ w, Forall (readable i j w) (elements sy)) l
  ∧ (∃ st, foldM (revise_body i j x y) (r, d1) l = Ok st)
  ∨ ¬ Forall (λ w, Forall (readable i j w) (elements sy)) l
    ∧ foldM (revise_body i j x y) (r, d1) l = Raise IndexError.
Proof.
  induction l as [|w l IH]; intros r d1 s Hs Hy Hnd Hin; simpl; [left; eauto|].
  apply NoDup_cons in Hnd as [Hw Hnd].
  rewrite (proj2 (domains_get_Ok d1 y sy) Hy). simpl.
  destruct (count_loop_outcome w (elements sy) 0) as [[Hr [n Hn]]|[Hr Hn]].
  2:{ right. rewrite Hn. split; [|done]. by intros [? _]%Forall_cons. }
  rewrite Hn. simpl. case_decide.
  - assert (domains_remove d1 x w = Ok (<[x := s ∖ {[w]}]> d1)) as ->.
    { apply domains_remove_Ok. exists s. set_solver. }
    simpl. destruct (IH true (<[x := s ∖ {[w]}]> d1) (s ∖ {[w]})) as [[Hl Hst]|[Hl Hst]];
      [by rewrite lookup_insert_eq|by rewrite lookup_insert_ne|done|set_solver| |].
    + left. split; [by constructor|done].
    + right. split; [|done]. by intros [_ ?]%Forall_cons.
  - destruct (IH r d1 s) as [[Hl Hst]|[Hl Hst]]; [done|done|done|set_solver| |].
    + left. split; [by constructor|done].
    + right. split; [|done]. by intros [_ ?]%Forall_cons.
Qed.
End revise_outcome.

Lemma revise_outcome c (d : domains) x y i j sx sy :
  valid_arc c (x, y) → overlap_table c x y = Some (i, j) →
  d !! x = Some sx → d !! y = Some sy →
  (∀ w w', w ∈ sx → w' ∈ sy → readable i j w w') ∧ (∃ r d', revise c d x y = Ok (r, d'))
  ∨ (∃ w w', w ∈ sx ∧ w' ∈ sy ∧ ¬ readable i j w w') ∧ revise c d x y = Raise IndexError.
Proof.
  intros (Hx & Hy & Hxy) Hij Hsx Hsy. simpl in *. unfold revise, overlaps.
  rewrite decide_True by done. simpl. rewrite Hij.
  rewrite (proj2 (domains_get_Ok d x sx) Hsx). simpl.
  destruct (revise_loop_outcome i j x y Hxy sy (elements sx) false d sx)
    as [[Hl [[r d'] Hst]]|[Hl Hst]];
    [done|done|apply NoDup_elements|by intros w ?%elem_of_elements| |].
  - left. split; [|eauto]. intros w w' Hw%elem_of_elements Hw'%elem_of_elements.
    rewrite Forall_forall in Hl. specialize (Hl w Hw). rewrite Forall_forall in Hl. auto.
  - right. split; [|done].
    apply not_Forall_Exists in Hl; [|apply _]. apply Exists_exists in Hl as (w & Hw & Hl).
    apply not_Forall_Exists in Hl; [|apply _]. apply Exists_exists in Hl as (w' & Hw' & Hl).
    exists w, w'. by rewrite <-!elem_of_elements.
Qed.

Lemma revise_twice c d x y r d' :
  revise c d x y = Ok (r, d') → revise c d' x y = Ok (false, d').
Proof.
  intros Hrev. pose proof Hrev as (Hx & Hy & Hxy & H)%revise_Ok.
  destruct (overlap_table c x y) as [[i j]|] eqn:Hij.
  2:{ destruct H as [-> ->]. done. }
  destruct H as (sx & sx' & Hsx & -> & Hmem & Hread & _).
  unfold revise, overlaps. rewrite decide_True by done. simpl. rewrite Hij.
  rewrite (proj2 (domains_get_Ok _ x sx') (lookup_insert_eq d x sx')). simpl.
  destruct (d !! y) as [sy|] eqn:Hsy.
  - rewrite (lookup_total_correct _ _ _ Hsy) in Hmem, Hread.
    apply revise_loop_noop with (sy := sy); [by rewrite lookup_insert_ne|].
    intros w [? ?]%elem_of_elements%Hmem. split; [done|]. intros w' ?. by apply Hread.
  - assert (sx' = ∅) as ->.
    { apply set_eq. intros w. rewrite Hmem. unfold supported.
      rewrite lookup_total_alt, Hsy. simpl. set_solver. }
    by rewrite elements_empty.
Qed.

(** X8: a returning call of [revise] touches no domain but that of [x]; where
    [x] and [y] overlap it leaves for [x] exactly the words that have a
    partner among the words of [y], where they do not it changes nothing;
    and it reports [True] exactly when the store has changed. *)
Theorem revise_effect (c : Crossword) (d : domains) (x y : variable) (r : bool)
    (d' : domains) :
  revise c d x y = Ok (r, d') →
  (∀ z, z ≠ x → d' !! z = d !! z)
  ∧ (∀ i j, overlap_table c x y = Some (i, j) →
       ∃ sx sx', d !! x = Some sx ∧ d' !! x = Some sx'
         ∧ ∀ w, w ∈ sx' ↔ w ∈ sx ∧ supported i j (d !!! y) w)
  ∧ (overlap_table c x y = None → d' = d)
  ∧ (r = true ↔ d' ≠ d).
Proof.
  intros (_ & _ & _ & H)%revise_Ok.
  destruct (overlap_table c x y) as [[i j]|].
  - destruct H as (sx & sx' & Hsx & -> & Hmem & _ & Hr).
    split; [by intros z ?; rewrite lookup_insert_ne|]. split; [|split; [done|]].
    + intros i' j' ?. simplify_eq. exists sx, sx'. by rewrite lookup_insert_eq.
    + rewrite Hr. split.
      * intros Hne Heq. apply Hne.
        assert (<[x := sx']> d !! x = d !! x) as Hx by by rewrite Heq.
        rewrite lookup_insert_eq, Hsx in Hx. by simplify_eq.
      * intros Hne ->. apply Hne. by apply insert_id.
  - destruct H as [-> ->]. split; [done|]. split; [done|]. split; [done|]. naive_solver.
Qed.

Lemma revise_effect_witness :
  (∀ z, z ≠ across2 →
     ({[across2 := {["ab"]}; right3 := {["bxx"]}]} : domains) !! z
     = ({[across2 := {["ab"; "cd"]}; right3 := {["bxx"]}]} : domains) !! z)
  ∧ (∀ i j, overlap_table (hook ∅) across2 right3 = Some (i, j) →
       ∃ sx sx', ({[across2 := {["ab"; "cd"]}; right3 := {["bxx"]}]} : domains) !! across2
                 = Some sx
         ∧ ({[across2 := {["ab"]}; right3 := {["bxx"]}]} : domains) !! across2 = Some sx'
         ∧ ∀ w, w ∈ sx' ↔ w ∈ sx
             ∧ supported i j
                 (({[across2 := {["ab"; "cd"]}; right3 := {["bxx"]}]} : domains) !!! right3) w)
  ∧ (overlap_table (hook ∅) across2 right3 = None →
       ({[across2 := {["ab"]}; right3 := {["bxx"]}]} : domains)
       = {[across2 := {["ab"; "cd"]}; right3 := {["bxx"]}]})
  ∧ (true = true ↔
       ({[across2 := {["ab"]}; right3 := {["bxx"]}]} : domains)
       ≠ {[across2 := {["ab"; "cd"]}; right3 := {["bxx"]}]}).
Proof.
  apply (revise_effect (hook ∅) _ across2 right3). vm_compute. reflexivity.
Defined.

(** X9: revising the same arc again removes nothing and reports [False]. *)
Theorem revise_idempotent (c : Crossword) (d : domains) (x y : variable) (r : bool)
    (d' : domains) :
  revise c d x y = Ok (r, d') → revise c d' x y = Ok (false, d').
Proof. apply revise_twice. Qed.

Lemma revise_idempotent_witness :
  revise (hook ∅) {[across2 := {["ab"]}; right3 := {["bxx"]}]} across2 right3
  = Ok (false, {[across2 := {["ab"]}; right3 := {["bxx"]}]}).
Proof.
  apply (revise_idempotent (hook ∅) {[across2 := {["ab"; "cd"]}; right3 := {["bxx"]}]}
           across2 right3 true).
  vm_compute. reflexivity.
Defined.

(** X10: on two different variables of the crossword that overlap and both have
    a domain, [revise] returns when every word of [x] is long enough for
    its offset and every word of [y] for its own, and raises [IndexError]
    when some pair of words is not; it raises nothing else. *)
Theorem revise_raises_IndexError (c : Crossword) (d : domains) (x y : variable)
    (i j : nat) (sx sy : gset string) :
  valid_arc c (x, y) → overlap_table c x y = Some (i, j) →
  d !! x = Some sx → d !! y = Some sy →
  (∀ w w', w ∈ sx → w' ∈ sy → readable i j w w') ∧ (∃ r d', revise c d x y = Ok (r, d'))
  ∨ (∃ w w', w ∈ sx ∧ w' ∈ sy ∧ ¬ readable i j w w') ∧ revise c d x y = Raise IndexError.
Proof. apply revise_outcome. Qed.

Lemma revise_raises_IndexError_witness :
  (∀ w w', w ∈ ({["a"]} : gset string) → w' ∈ ({["bxx"]} : gset string) → readable 1 0 w w')
  ∧ (∃ r d', revise (hook ∅) {[across2 := {["a"]}; right3 := {["bxx"]}]} across2 right3
             = Ok (r, d'))
  ∨ (∃ w w', w ∈ ({["a"]} : gset string) ∧ w' ∈ ({["bxx"]} : gset string)
             ∧ ¬ readable 1 0 w w')
    ∧ revise (hook ∅) {[across2 := {["a"]}; right3 := {["bxx"]}]} across2 right3
      = Raise IndexError.
Proof.
  apply (revise_raises_IndexError (hook ∅)).
  - repeat split; [set_solver..|done].
  - vm_compute. reflexivity.
  - vm_compute. reflexivity.
  - vm_compute. reflexivity.
Defined.

(** ** Node consistency, again and after [__init__] *)

Lemma enforce_node_consistency_node_consistent d d' :
  enforce_node_consistency d = Ok d' → node_consistent d'.
Proof.
  intros H v s' w Hs' Hw.
  destruct (enforce_node_consistency_Ok d) as (d1 & Hd1 & Hdom & Hspec).
  rewrite H in Hd1. injection Hd1 as <-.
  assert (is_Some (d !! v)) as [s Hs].
  { apply elem_of_dom. rewrite <-Hdom. apply elem_of_dom. eauto. }
  destruct (Hspec v s Hs) as (s1 & Hs1 & Hmem). simplify_eq. by apply Hmem in Hw as [_ ?].
Qed.

Lemma enforce_node_consistency_fixed d :
  node_consistent d → enforce_node_consistency d = Ok d.
Proof.
  intros Hnc. destruct (enforce_node_consistency_Ok d) as (d' & -> & Hdom & Hspec).
  f_equal. apply map_eq. intros v. destruct (d !! v) as [s|] eqn:Hs.
  - destruct (Hspec v s Hs) as (s' & -> & Hmem). f_equal. apply set_eq. intros w.
    rewrite Hmem. naive_solver.
  - apply not_elem_of_dom. rewrite Hdom. by apply not_elem_of_dom.
Qed.

(** X11: node consistency is enforced once and for all: a second call returns
    the store that the first one left. *)
Theorem enforce_node_consistency_idempotent (d : domains) :
  ∃ d', enforce_node_consistency d = Ok d'
        ∧ node_consistent d'
        ∧ enforce_node_consistency d' = Ok d'.
Proof.
  destruct (enforce_node_consistency_Ok d) as (d' & Hd' & _). exists d'.
  split; [done|]. pose proof (enforce_node_consistency_node_consistent _ _ Hd').
  split; [done|]. by apply enforce_node_consistency_fixed.
Qed.

Lemma lookup_init c v : v ∈ variables c → init c !! v = Some (words c).
Proof.
  intros Hv. apply lookup_set_to_map; [|by exists v].
  intros y y' _ _ ?. by simplify_eq.
Qed.

(** X12: after [__init__] and [enforce_node_consistency] the domain of a variable
    is the set of the words of the word list that have its length. *)
Theorem node_consistency_after_init (c : Crossword) :
  ∃ d, enforce_node_consistency (init c) = Ok d
       ∧ dom d = variables c
       ∧ ∀ v, v ∈ variables c →
           ∃ s, d !! v = Some s
                ∧ ∀ w, w ∈ s ↔ w ∈ words c ∧ String.length w = var_length v.
Proof.
  destruct (enforce_node_consistency_Ok (init c)) as (d & Hd & Hdom & Hspec).
  exists d. split; [done|]. split; [by rewrite Hdom, dom_init|].
  intros v Hv. by apply Hspec, lookup_init.
Qed.

(** ** [ac3]: what it keeps and when it cannot fail *)

Lemma sub_store_lookup_total (e d : domains) y : sub_store e d → e !!! y ⊆ d !!! y.
Proof.
  intros Hsub. rewrite (lookup_total_alt e). destruct (e !! y) as [se|] eqn:He; simpl.
  - destruct (Hsub y se He) as (s & Hs & ?). by rewrite (lookup_total_correct _ _ _ Hs).
  - set_solver.
Qed.

Lemma revise_keeps_sub_store c d x y r d' e :
  revise c d x y = Ok (r, d') → sub_store e d → self_supported c e → sub_store e d'.
Proof.
  intros (Hx & Hy & Hxy & H)%revise_Ok Hsub Hsup.
  destruct (overlap_table c x y) as [[i j]|] eqn:Hij; [|by destruct H as [_ ->]].
  destruct H as (sx & sx' & Hsx & -> & Hmem & _).
  intros z se Hz. destruct (decide (z = x)) as [->|?].
  - exists sx'. rewrite lookup_insert_eq. split; [done|].
    destruct (Hsub x se Hz) as (s & Hs & Hse). simplify_eq.
    intros w Hw. apply Hmem. split; [by apply Hse|].
    destruct (Hsup x y i j se w (conj Hx (conj Hy Hxy)) Hij Hz Hw) as (w' & Hw' & Hag).
    exists w'. split; [|done]. by apply (sub_store_lookup_total e d y).
  - rewrite lookup_insert_ne by done. by apply Hsub.
Qed.

Lemma ac3_loop_keeps_sub_store c e : self_supported c e → ∀ fuel q d b d',
  ac3_loop c fuel q d = Ok (b, d') → sub_store e d → sub_store e d'.
Proof.
  intros Hsup. induction fuel as [|fuel IH]; intros [|[x y] q] d b d' H Hsub;
    simpl in H; try by simplify_eq.
  inv_bind H as st Hrev. destruct st as [r d1].
  pose proof (revise_keeps_sub_store _ _ _ _ _ _ _ Hrev Hsub Hsup) as Hsub1.
  destruct r; simpl in H.
  - inv_bind H as dx Hdx. case_decide; [by simplify_eq|]. by eapply IH.
  - by eapply IH.
Qed.

Lemma ac3_loop_true_empty c : ∀ fuel q d d',
  ac3_loop c fuel q d = Ok (true, d') → ∀ x, d' !! x = Some ∅ → d !! x = Some ∅.
Proof.
  induction fuel as [|fuel IH]; intros [|[x y] q] d d' H z Hz; simpl in H;
    try by simplify_eq.
  inv_bind H as st Hrev. destruct st as [[] d1]; simpl in H.
  - apply revise_shrinks in Hrev as (sx & sx' & Hsx & -> & _).
    inv_bind H as dx Hdx. apply domains_get_Ok in Hdx. rewrite lookup_insert_eq in Hdx.
    simplify_eq. case_decide as Hsize; [done|].
    pose proof (IH _ _ _ H z Hz) as Hz1. destruct (decide (z = x)) as [->|?].
    + rewrite lookup_insert_eq in Hz1. by simplify_eq.
    + by rewrite lookup_insert_ne in Hz1.
  - apply revise_unchanged in Hrev as ->. by eapply IH.
Qed.

Section ac3_safe.
Context (c : Crossword) (Hrange : overlap_in_range c).

Lemma revise_safe (d : domains) x y :
  valid_arc c (x, y) → dom d = variables c → node_consistent d →
  ∃ r d', revise c d x y = Ok (r, d').
Proof.
  intros Harc Hdom Hnc. pose proof Harc as (Hx & Hy & Hxy). simpl in *.
  destruct (overlap_table c x y) as [[i j]|] eqn:Hij.
  2:{ exists false, d. unfold revise, overlaps. rewrite decide_True by done.
      simpl. by rewrite Hij. }
  assert (is_Some (d !! x)) as [sx Hsx] by by rewrite <-elem_of_dom, Hdom.
  assert (is_Some (d !! y)) as [sy Hsy] by by rewrite <-elem_of_dom, Hdom.
  destruct (revise_outcome c d x y i j sx sy Harc Hij Hsx Hsy)
    as [[_ ?]|[(w & w' & Hw & Hw' & Hr) _]]; [done|].
  destruct Hr. destruct (Hrange x y i j Hx Hy Hij) as [Hi Hj].
  rewrite <-(Hnc x sx w Hsx Hw) in Hi. rewrite <-(Hnc y sy w' Hsy Hw') in Hj.
  split; by apply get_in_range.
Qed.

Lemma ac3_loop_safe : ∀ fuel q (d : domains),
  dom d = variables c → node_consistent d → Forall (valid_arc c) q →
  ac3_fuel c q d ≤ fuel →
  ∃ b d', ac3_loop c fuel q d = Ok (b, d') ∧ dom d' = variables c ∧ node_consistent d'.
Proof.
  induction fuel as [|fuel IH]; intros [|[x y] q] d Hdom Hnc Hq Hfuel; simpl.
  { by exists true, d. }
  { unfold ac3_fuel in Hfuel. simpl in Hfuel. lia. }
  { by exists true, d. }
  apply Forall_cons in Hq as [Harc Hq].
  destruct (revise_safe d x y Harc Hdom Hnc) as (r & d1 & Hrev). rewrite Hrev. simpl.
  destruct r.
  - pose proof (revise_total_size _ _ _ _ _ Hrev).
    apply revise_shrinks in Hrev as (sx & sx' & Hsx & -> & [Hsub _]).
    assert (dom (<[x := sx']> d) = variables c) as Hdom1.
    { rewrite dom_insert_L, <-Hdom. apply elem_of_dom_2 in Hsx. set_solver. }
    assert (node_consistent (<[x := sx']> d)) as Hnc1.
    { intros v s w. destruct (decide (v = x)) as [->|?].
      - rewrite lookup_insert_eq. intros ? ?. simplify_eq. eapply Hnc; [done|]. by apply Hsub.
      - rewrite lookup_insert_ne by done. apply Hnc. }
    unfold domains_get. rewrite lookup_insert_eq. simpl.
    case_decide; [by exists false, (<[x := sx']> d)|]. apply IH; [done|done| |].
    + apply Forall_app. split; [done|]. apply Forall_fmap, Forall_forall.
      intros z [_ (? & ? & _)%elem_of_neighbors]%list_elem_of_filter.
      destruct Harc as (? & _). done.
    + pose proof (length_requeued c x y). unfold ac3_fuel in *. simpl in Hfuel.
      rewrite length_app. nia.
  - apply revise_unchanged in Hrev as ->. apply IH; [done|done|done|].
    unfold ac3_fuel in *. simpl in Hfuel. lia.
Qed.
End ac3_safe.

(** X13: a store inside the store given to [ac3] whose words all have partners
    inside it, along every overlap, stays inside the store that [ac3]
    leaves: [ac3] never removes a word of such a store. *)
Theorem ac3_keeps_supported_stores (c : Crossword) (d : domains) (b : bool)
    (d' e : domains) :
  ac3 c d None = Ok (b, d') → sub_store e d → self_supported c e → sub_store e d'.
Proof.
  unfold ac3. simpl. intros H Hsub Hsup. by eapply ac3_loop_keeps_sub_store.
Qed.

Lemma ac3_result_self_supported c (d d' : domains) :
  overlap_symmetric c → dom d = variables c →
  ac3 c d None = Ok (true, d') → self_supported c d'.
Proof.
  intros Hsym Hdom H. unfold ac3 in H. simpl in H.
  apply ac3_loop_sound in H as (_ & _ & Harcs); [|done|by apply ac3_invariant_initial].
  intros x y i j se w (Hx & Hy & Hxy) Hij Hse Hw.
  destruct (Harcs x y Hx Hy Hxy) as [[]%not_elem_of_nil|Hcons].
  destruct (Hcons i j Hij) as (sx & sy & Hsx & Hsy & Hsup). simplify_eq.
  rewrite (lookup_total_correct _ _ _ Hsy). by apply Hsup.
Qed.

Lemma ac3_keeps_supported_stores_witness :
  sub_store {[across2 := {["ab"]}; right3 := {["bxx"]}]}
            {[across2 := {["ab"]}; right3 := {["bxx"]}]}.
Proof.
  apply (ac3_keeps_supported_stores (hook ∅)
           {[across2 := {["ab"; "cd"]}; right3 := {["bxx"]}]} true).
  - vm_compute. reflexivity.
  - unfold sub_store.
    apply (ac3_loop_shrinks (hook ∅) 6
             (all_arcs {[across2 := {["ab"; "cd"]}; right3 := {["bxx"]}]})
             {[across2 := {["ab"; "cd"]}; right3 := {["bxx"]}]} true).
    vm_compute. reflexivity.
  - apply (ac3_result_self_supported (hook ∅)
             {[across2 := {["ab"; "cd"]}; right3 := {["bxx"]}]}).
    + apply hook_symmetric.
    + vm_compute. reflexivity.
    + vm_compute. reflexivity.
Defined.

(** X14: when [ac3] returns [True], a domain that is empty was empty at the
    call. *)
Theorem ac3_True_empties_nothing (c : Crossword) (d d' : domains) (x : variable) :
  ac3 c d None = Ok (true, d') → d' !! x = Some ∅ → d !! x = Some ∅.
Proof. unfold ac3. simpl. intros H. by eapply ac3_loop_true_empty. Qed.

Lemma ac3_True_empties_nothing_witness :
  ({[across3 := ∅]} : domains) !! across3 = Some ∅.
Proof.
  apply (ac3_True_empties_nothing (lone ∅) {[across3 := ∅]} {[across3 := ∅]} across3).
  - vm_compute. reflexivity.
  - vm_compute. reflexivity.
Defined.

(** X15: on a store over the variables of the crossword whose words all have the
    length of their variable, with overlap offsets inside the slots, [ac3]
    raises nothing: it returns, and leaves such a store. *)
Theorem ac3_safe (c : Crossword) (d : domains) :
  overlap_in_range c → dom d = variables c → node_consistent d →
  ∃ b d', ac3 c d None = Ok (b, d') ∧ dom d' = variables c ∧ node_consistent d'.
Proof.
  intros Hrange Hdom Hnc. unfold ac3. simpl. apply ac3_loop_safe; [done..| |done].
  apply Forall_forall. intros [x y] H%elem_of_all_arcs. by rewrite Hdom in H.
Qed.

Lemma hook_in_range ws : overlap_in_range (hook ws).
Proof.
  intros x y i j _ _. simpl. repeat case_decide; intros ?; simplify_eq;
    destruct_and?; simplify_eq; simpl; lia.
Defined.

Lemma ac3_safe_witness :
  ∃ b d', ac3 (hook ∅) {[across2 := {["ab"; "cd"]}; right3 := {["bxx"]}]} None = Ok (b, d')
          ∧ dom d' = variables (hook ∅) ∧ node_consistent d'.
Proof.
  apply (ac3_safe (hook ∅) {[across2 := {["ab"; "cd"]}; right3 := {["bxx"]}]}).
  - apply hook_in_range.
  - vm_compute. reflexivity.
  - apply (enforce_node_consistency_node_consistent
             (init (hook {["ab"; "cd"; "bxx"]}))).
    vm_compute. reflexivity.
Defined.

(** ** [consistent] and [assignment_complete] on parts of an assignment *)

Lemma consistent_outcome (c : Crossword) (a : assignment) :
  overlap_symmetric c → overlap_in_range c → dom a ⊆ variables c →
  ∃ b, consistent c a = Ok b
       ∧ (b = true ↔ words_distinct a ∧ lengths_fit a ∧ overlaps_agree c a).
Proof.
  intros Hsym Hrange Hdom. unfold consistent.
  destruct (duplicate_check a) as [[-> Ha]|[-> Ha]]; simpl; [|exists false; naive_solver].
  destruct (length_check a) as [[-> Hb]|[-> Hb]]; simpl; [|exists false; naive_solver].
  destruct (overlap_check c a Hsym Hrange Hdom Hb) as [[-> Hc]|[-> Hc]]; simpl;
    [exists true|exists false]; naive_solver.
Qed.

Lemma conditions_sub_assignment c (a a' : assignment) :
  a ⊆ a' → words_distinct a' ∧ lengths_fit a' ∧ overlaps_agree c a' →
  words_distinct a ∧ lengths_fit a ∧ overlaps_agree c a.
Proof.
  intros Hsub (Hd & Hl & Ho). split; [|split].
  - intros x y w Hx Hy. apply (Hd x y w); by eapply lookup_weaken.
  - intros x w Hx. apply Hl. by eapply lookup_weaken.
  - intros x y wx wy Hx Hy. apply Ho; by eapply lookup_weaken.
Qed.

(** X16: what [consistent] accepts it accepts in part: an assignment that leaves
    out entries of a consistent assignment is consistent. *)
Theorem consistent_sub_assignment (c : Crossword) (a a' : assignment) :
  overlap_symmetric c → overlap_in_range c → dom a' ⊆ variables c →
  a ⊆ a' → consistent c a' = Ok true → consistent c a = Ok true.
Proof.
  intros Hsym Hrange Hdom Hsub H.
  destruct (consistent_outcome c a' Hsym Hrange Hdom) as (b' & Hb' & Hiff').
  rewrite H in Hb'. injection Hb' as <-.
  destruct (consistent_outcome c a Hsym Hrange) as (b & -> & Hiff).
  { etrans; [|done]. by apply subseteq_dom. }
  f_equal. apply Hiff. apply (conditions_sub_assignment c a a'); [done|]. by apply Hiff'.
Qed.

Lemma consistent_sub_assignment_witness :
  consistent (corner ∅) {[across3 := "cat"]} = Ok true.
Proof.
  apply (consistent_sub_assignment (corner ∅) _ {[across3 := "cat"; down3 := "car"]}).
  - apply corner_symmetric.
  - apply corner_in_range.
  - apply (bool_decide_unpack (dom _ ⊆ _)). vm_compute. exact I.
  - apply insert_mono. apply map_empty_subseteq.
  - vm_compute. reflexivity.
Defined.

(** X17: for an assignment to variables of the store, [assignment_complete]
    holds exactly when every variable of the store has a word. *)
Theorem assignment_complete_iff (d : domains) (a : assignment) :
  dom a ⊆ dom d → assignment_complete d a = true ↔ dom a = dom d.
Proof.
  intros Hsub. unfold assignment_complete. rewrite bool_decide_eq_true. split.
  - intros Hsize. apply set_subseteq_size_eq; [done|]. rewrite !size_dom. lia.
  - intros Heq. by rewrite <-!size_dom, Heq.
Qed.

Lemma assignment_complete_iff_witness :
  assignment_complete {[across3 := {["cat"]}; down3 := {["car"]}]} {[across3 := "cat"]} = true
  ↔ dom ({[across3 := "cat"]} : assignment)
    = dom ({[across3 := {["cat"]}; down3 := {["car"]}]} : domains).
Proof.
  apply assignment_complete_iff.
  apply (bool_decide_unpack (dom _ ⊆ dom _)). vm_compute. exact I.
Defined.

(** ** [solve] finds a solution when there is one *)

Lemma for_return_None {A R} (body : A → result (option R)) (l : list A) :
  for_return body l = Ok None → ∀ x, x ∈ l → body x = Ok None.
Proof.
  induction l as [|x l IH]; intros H y Hy; simpl in H; [by apply not_elem_of_nil in Hy|].
  inv_bind H as o Ho. destruct o as [r|]; [done|].
  apply elem_of_cons in Hy as [->|Hy]; [done|by apply IH].
Qed.

Section complete_search.
Context (c : Crossword) (Hsym : overlap_symmetric c) (Hrange : overlap_in_range c).
Context (d : domains) (s : assignment).
Context (Hdom : dom d = variables c) (Hs : dom s = variables c).
Context (Hin : ∀ v w, s !! v = Some w → w ∈ d !!! v).
Context (Hcons : words_distinct s ∧ lengths_fit s ∧ overlaps_agree c s).

(** With a solution inside the domains, [backtrack] does not give up on
    any part of it. *)
Lemma backtrack_not_None : ∀ fuel (a : assignment),
  a ⊆ s → backtrack c d fuel a ≠ Ok None.
Proof.
  induction fuel as [|fuel IH]; intros a Ha H; simpl in H; [done|].
  destruct (assignment_complete d a); [done|].
  inv_bind H as var Hvar. destruct var as [variable|]; [|done].
  apply select_unassigned_variable_Some in Hvar as (Hvd & Hva & _).
  inv_bind H as values Hvalues. apply order_domain_values_Ok in Hvalues as [Hperm _].
  assert (is_Some (s !! variable)) as [w Hw].
  { apply elem_of_dom. by rewrite Hs, <-Hdom. }
  assert (w ∈ values) as Hwv.
  { rewrite Hperm. apply elem_of_elements. by apply Hin. }
  pose proof (for_return_None _ _ H w Hwv) as Hbody. simpl in Hbody.
  assert (<[variable := w]> a ⊆ s) as Ha'.
  { apply insert_subseteq_l; done. }
  destruct (consistent_outcome c (<[variable := w]> a) Hsym Hrange) as (b & Hb & Hiff).
  { rewrite <-Hs. by apply subseteq_dom. }
  rewrite Hb in Hbody. simpl in Hbody.
  assert (b = true) as ->.
  { apply Hiff. by apply (conditions_sub_assignment c _ s). }
  by apply IH in Hbody.
Qed.
End complete_search.

Lemma solution_in_store c (s : assignment) (d : domains) :
  overlap_symmetric c → dom s = variables c → overlaps_agree c s →
  (∀ v w, s !! v = Some w → ∃ sv, d !! v = Some sv ∧ w ∈ sv) →
  sub_store ((λ w, {[w]}) <$> s) d ∧ self_supported c ((λ w, {[w]}) <$> s).
Proof.
  intros Hsym Hdom Hag Hin. split.
  - intros x se. rewrite lookup_fmap. destruct (s !! x) as [w|] eqn:Hw; [|done].
    intros ?. simplify_eq. destruct (Hin x w Hw) as (sv & ? & ?). exists sv. set_solver.
  - intros x y i j se wx (Hx & Hy & Hxy) Hij. simpl in *.
    rewrite lookup_fmap. destruct (s !! x) as [w|] eqn:Hw; [|done].
    simpl. intros Hse Hwx. injection Hse as <-. apply elem_of_singleton in Hwx as ->.
    assert (is_Some (s !! y)) as [wy Hwy] by by rewrite <-elem_of_dom, Hdom.
    destruct (Hag x y w wy Hw Hwy) as (i' & j' & Hij' & Hagree).
    { apply elem_of_neighbors. split; [done|]. split; [done|]. apply Hsym in Hij. eauto. }
    simplify_eq. exists wy. split; [|done].
    rewrite lookup_total_alt, lookup_fmap, Hwy. simpl. set_solver.
Qed.

Lemma solve_None c :
  overlap_symmetric c → overlap_in_range c → solve c = Ok None → ¬ ∃ s, solution c s.
Proof.
  intros Hsym Hrange H [s Hsol]. unfold solve in H.
  inv_bind H as d1 Hd1. inv_bind H as st Hac3. destruct st as [b d2]. cbv beta iota in H.
  destruct (enforce_node_consistency_Ok (init c)) as (d1' & Hd1' & Hdom1 & Hspec).
  rewrite Hd1 in Hd1'. injection Hd1' as <-. rewrite dom_init in Hdom1.
  pose proof Hsol as (Hs & Hwords & Hdist & Hfit & Hag).
  destruct (solution_in_store c s d1 Hsym Hs Hag) as [Hsub Hsup].
  { intros v w Hw. destruct (Hspec v (words c)) as (sv & Hsv & Hmem).
    - apply lookup_init. rewrite <-Hs. by apply elem_of_dom_2 in Hw.
    - exists sv. split; [done|]. apply Hmem. split; [by eapply Hwords|by apply Hfit]. }
  unfold ac3 in Hac3. simpl in Hac3.
  pose proof (ac3_loop_dom _ _ _ _ _ _ Hac3) as Hdom2.
  pose proof (ac3_loop_keeps_sub_store c _ Hsup _ _ _ _ _ Hac3 Hsub) as Hsub2.
  revert H. apply (backtrack_not_None c Hsym Hrange d2 s); try done.
  - by rewrite Hdom2.
  - intros v w Hw. destruct (Hsub2 v {[w]}) as (sv & Hsv & ?).
    { by rewrite lookup_fmap, Hw. }
    rewrite (lookup_total_correct _ _ _ Hsv). set_solver.
  - apply map_empty_subseteq.
Qed.

(** X18: on a crossword with a symmetric, in-range overlap table, [solve] returns
    [None] only when the crossword has no solution over its word list. *)
Theorem solve_None_no_solution (c : Crossword) :
  overlap_symmetric c → overlap_in_range c → solve c = Ok None → ¬ ∃ s, solution c s.
Proof. apply solve_None. Qed.

Lemma solve_None_no_solution_witness :
  solve (corner {["cat"; "dog"]}) = Ok None
  ∧ ¬ ∃ s, solution (corner {["cat"; "dog"]}) s.
Proof.
  split; [vm_compute; reflexivity|].
  apply (solve_None_no_solution (corner {["cat"; "dog"]})).
  - apply corner_symmetric.
  - apply corner_in_range.
  - vm_compute. reflexivity.
Defined.

(** ** [solve] without exceptions *)




Lemma lowest_size_attained (vv : list (variable * N)) : ∀ l0,
  let l := foldl (λ l (p : variable * N), if (p.2 <? l)%N then p.2 else l) l0 vv in
  l = l0 ∨ ∃ p, p ∈ vv ∧ p.2 = l.
Proof.
  induction vv as [|q vv IH]; intros l0; simpl; [by left|].
  destruct (IH (if (q.2 <? l0)%N then q.2 else l0)) as [->|(p & ? & ?)].
  - destruct (q.2 <? l0)%N; [right|by left]. exists q. by split; [left|].
  - right. exists p. by split; [right|].
Qed.

Lemma highest_degree_Some c (lowest : list variable) : ∀ n0 r0,
  is_Some r0 →
  is_Some (foldl (λ (st : nat * option variable) variable,
      if decide (st.1 < length (neighbors c variable))
      then (length (neighbors c variable), Some variable)
      else st) (n0, r0) lowest).2.
Proof.
  induction lowest as [|x l IH]; intros n0 r0 Hr; simpl; [done|].
  case_decide; by apply IH.
Qed.


Section safe_search.
Context (c : Crossword) (Hsym : overlap_symmetric c) (Hrange : overlap_in_range c).
Context (Hcross : ∀ v, v ∈ variables c → neighbors c v ≠ []).
Context (d : domains) (Hdom : dom d = variables c) (Hnc : node_consistent d).
Context (Hsize : ∀ v sv, d !! v = Some sv → (N.of_nat (size sv) ≤ 999999999)%N).



End safe_search.


Lemma backtrack_Some_words c d : ∀ fuel (a r : assignment),
  backtrack c d fuel a = Ok (Some r) →
  ∀ v w, r !! v = Some w → a !! v = Some w ∨ w ∈ d !!! v.
Proof.
  induction fuel as [|fuel IH]; intros a r H v w Hw; simpl in H; [done|].
  destruct (assignment_complete d a); [simplify_eq; by left|].
  inv_bind H as var Hvar. destruct var as [variable|]; [|done].
  inv_bind H as values Hvalues. apply order_domain_values_Ok in Hvalues as [Hperm _].
  apply for_return_Some in H as (word & Hword & H).
  inv_bind H as ok Hok. destruct ok; [|done].
  destruct (IH _ _ H v w Hw) as [Hv|?]; [|by right].
  destruct (decide (v = variable)) as [->|?].
  - rewrite lookup_insert_eq in Hv. simplify_eq. right.
    apply elem_of_elements. by rewrite <-Hperm.
  - rewrite lookup_insert_ne in Hv by done. by left.
Qed.

Lemma solve_solution c (a : assignment) :
  overlap_symmetric c → overlap_in_range c → solve c = Ok (Some a) → solution c a.
Proof.
  intros Hsym Hrange H. pose proof (solve_Some c a H) as [Hdom Hcons].
  split; [done|]. split.
  - unfold solve in H. inv_bind H as d1 Hd1. inv_bind H as st Hac3.
    destruct st as [b d2].
    assert (backtrack c d2 (S (size d2)) ∅ = Ok (Some a)) as Hback by exact H.
    clear H. intros v w Hw.
    destruct (backtrack_Some_words _ _ _ _ _ Hback v w Hw) as [?|Hin]; [done|].
    unfold ac3 in Hac3. simpl in Hac3.
    rewrite lookup_total_alt in Hin. destruct (d2 !! v) as [sv|] eqn:Hsv; [|set_solver].
    destruct (ac3_loop_shrinks _ _ _ _ _ _ Hac3 v sv Hsv) as (s1 & Hs1 & Hsub).
    destruct (enforce_node_consistency_Ok (init c)) as (d1' & Hd1' & Hdom1 & Hspec).
    rewrite Hd1 in Hd1'. injection Hd1' as <-.
    assert (v ∈ variables c) as Hv.
    { rewrite <-(dom_init c), <-Hdom1. by apply elem_of_dom_2 in Hs1. }
    destruct (Hspec v (words c) (lookup_init c v Hv)) as (s1' & Hs1' & Hmem). simplify_eq.
    simpl in Hin. by apply Hsub, Hmem in Hin as [? _].
  - destruct (consistent_outcome c a Hsym Hrange) as (b & Hb & Hiff); [by rewrite Hdom|].
    rewrite Hcons in Hb. injection Hb as <-. by apply Hiff.
Qed.

(** X19: on a crossword with a symmetric, in-range overlap table, an assignment
    that [solve] returns is a solution: a word of the word list for every
    variable, no word twice, every word of the length of its slot, and equal
    letters where slots overlap. *)
Theorem solve_returns_solution (c : Crossword) (a : assignment) :
  overlap_symmetric c → overlap_in_range c → solve c = Ok (Some a) → solution c a.
Proof. apply solve_solution. Qed.

Lemma solve_returns_solution_witness :
  solution (corner {["cat"; "car"; "dog"]}) {[across3 := "car"; down3 := "cat"]}.
Proof.
  apply (solve_returns_solution (corner {["cat"; "car"; "dog"]})).
  - apply corner_symmetric.
  - apply corner_in_range.
  - vm_compute. reflexivity.
Defined.




(** ** [letter_grid] *)

Lemma foldM_app {A B} (f : B → A → result B) (l1 l2 : list A) : ∀ b,
  foldM f b (l1 ++ l2) = foldM f b l1 ≫= λ b', foldM f b' l2.
Proof.
  induction l1 as [|x l1 IH]; intros b; simpl; [done|].
  destruct (f b x) as [b1|e|]; simpl; [apply IH|done|done].
Qed.

Lemma foldM_bind {A B C} (f : B → A → result B) (h : C → list A) (l : list C) : ∀ b,
  foldM (λ b x, foldM f b (h x)) b l = foldM f b (l ≫= h).
Proof.
  induction l as [|x l IH]; intros b; simpl; [done|].
  rewrite foldM_app. destruct (foldM f b (h x)) as [b1|e|]; simpl; [apply IH|done|done].
Qed.

Lemma get_Some_lt w : ∀ k ch, String.get k w = Some ch → k < String.length w.
Proof.
  induction w as [|c w IH]; intros k ch H; simpl in *; [done|].
  destruct k; [lia|]. apply IH in H. lia.
Qed.

(** The letters of a word with the cells on which [letter_grid] puts them. *)
Local Abbreviation word_writes entry :=
  (omap (λ k, (λ ch, (cell entry.1 k, ch)) <$> String.get k entry.2)
        (seq 0 (String.length entry.2))).

Local Abbreviation write :=
  (λ (letters : list (list (option ascii))) (pc : nat * nat * ascii),
     grid_set letters pc.1.1 pc.1.2 pc.2).

Lemma foldM_ext {A B} (f g : B → A → result B) (l : list A) : ∀ b,
  (∀ b x, x ∈ l → f b x = g b x) → foldM f b l = foldM g b l.
Proof.
  induction l as [|x l IH]; intros b Hfg; simpl; [done|].
  rewrite Hfg by left. destruct (g b x) as [b1|e|]; simpl; [|done|done].
  apply IH. intros b2 y ?. apply Hfg. by right.
Qed.

Lemma word_fold_writes (entry : variable * string) (ks : list nat) : ∀ letters,
  Forall (λ k, k < String.length entry.2) ks →
  foldM (λ letters k,
      let i := var_i entry.1 + (if decide (var_direction entry.1 = DOWN) then k else 0) in
      let j := var_j entry.1 + (if decide (var_direction entry.1 = ACROSS) then k else 0) in
      ch ← str_index entry.2 k;
      grid_set letters i j ch) letters ks
  = foldM write letters
      (omap (λ k, (λ ch, (cell entry.1 k, ch)) <$> String.get k entry.2) ks).
Proof.
  induction ks as [|k ks IH]; intros letters Hks; [done|].
  apply Forall_cons in Hks as [Hk Hks]. simpl.
  apply get_in_range in Hk as [ch Hch]. rewrite Hch. simpl.
  rewrite (proj2 (str_index_Ok entry.2 k ch) Hch). simpl. unfold cell.
  destruct (grid_set _ _ _ ch) as [g1|e|]; simpl; [|done|done].
  by apply IH.
Qed.

Lemma letter_grid_writes height width (a : assignment) :
  letter_grid height width a
  = foldM write (replicate height (replicate width None))
      (map_to_list a ≫= λ entry, word_writes entry).
Proof.
  unfold letter_grid. rewrite <-foldM_bind. apply foldM_ext.
  intros letters entry _. apply word_fold_writes.
  apply Forall_forall. intros k Hk%elem_of_seq. lia.
Qed.

Lemma elem_of_writes (a : assignment) p ch :
  (p, ch) ∈ (map_to_list a ≫= λ entry, word_writes entry) ↔ covers a p ch.
Proof.
  rewrite list_elem_of_bind. unfold covers. split.
  - intros ([v w] & Hin & Hvw%elem_of_map_to_list). simpl in Hin.
    apply list_elem_of_omap in Hin as (k & _ & Hk).
    destruct (String.get k w) as [ch'|] eqn:Hget; [|done].
    simpl in Hk. injection Hk as <- <-. eauto 10.
  - intros (v & w & k & Hvw & Hget & <-). exists (v, w). split.
    + apply list_elem_of_omap. exists k. simpl. rewrite Hget. split; [|done].
      apply elem_of_seq. apply get_Some_lt in Hget. lia.
    + by apply elem_of_map_to_list.
Qed.

Section writes.
Context (height width : nat).

Lemma grid_set_Ok g p ch :
  grid_shape height width g → p.1 < height → p.2 < width →
  ∃ g', grid_set g p.1 p.2 ch = Ok g'
        ∧ grid_shape height width g'
        ∧ grid_at g' p = Some (Some ch)
        ∧ ∀ q, q ≠ p → grid_at g' q = grid_at g q.
Proof.
  intros [Hlen Hrows] Hi Hj. unfold grid_set.
  destruct (lookup_lt_is_Some_2 g p.1) as [row Hrow]; [lia|]. rewrite Hrow.
  assert (length row = width) as Hw.
  { rewrite Forall_forall in Hrows. apply Hrows. by eapply list_elem_of_lookup_2. }
  rewrite decide_True by lia. eexists. split; [done|]. split; [|split].
  - split; [by rewrite length_insert|]. apply Forall_insert; [done|].
    by rewrite length_insert.
  - unfold grid_at. rewrite list_lookup_insert_eq by lia.
    apply list_lookup_insert_eq. lia.
  - intros q Hq. unfold grid_at. destruct (decide (q.1 = p.1)) as [Heq|Hne].
    + rewrite Heq, list_lookup_insert_eq, Hrow by lia.
      apply list_lookup_insert_ne. intros Hq2. apply Hq.
      destruct p, q; simpl in *; congruence.
    + by rewrite list_lookup_insert_ne.
Qed.

Lemma grid_set_outside g p ch :
  grid_shape height width g → ¬ (p.1 < height ∧ p.2 < width) →
  grid_set g p.1 p.2 ch = Raise IndexError.
Proof.
  intros [Hlen Hrows] Hout. unfold grid_set.
  destruct (g !! p.1) as [row|] eqn:Hrow; [|done].
  assert (length row = width) as Hw.
  { rewrite Forall_forall in Hrows. apply Hrows. by eapply list_elem_of_lookup_2. }
  apply lookup_lt_Some in Hrow. rewrite decide_False; [done|]. lia.
Qed.

(** A run of writes either stays inside the grid, and then every cell
    holds one of the letters written to it, or what it held before when
    nothing is written to it; or it stops with [IndexError] at the first
    write outside. *)
Lemma writes_outcome (ws : list (nat * nat * ascii)) : ∀ g0,
  grid_shape height width g0 →
  Forall (λ pc, pc.1.1 < height ∧ pc.1.2 < width) ws
  ∧ (∃ g, foldM write g0 ws = Ok g ∧ grid_shape height width g
       ∧ ∀ p, grid_at g p = grid_at g0 p ∧ (∀ ch, (p, ch) ∉ ws)
              ∨ ∃ ch, (p, ch) ∈ ws ∧ grid_at g p = Some (Some ch))
  ∨ ¬ Forall (λ pc, pc.1.1 < height ∧ pc.1.2 < width) ws
    ∧ foldM write g0 ws = Raise IndexError.
Proof.
  induction ws as [|[p ch] ws IH]; intros g0 Hshape; simpl.
  { left. split; [done|]. exists g0. split; [done|]. split; [done|].
    intros p. left. split; [done|]. intros ch. apply not_elem_of_nil. }
  destruct (decide (p.1 < height ∧ p.2 < width)) as [[Hi Hj]|Hout].
  2:{ right. rewrite grid_set_outside by done. split; [|done].
      by intros [? _]%Forall_cons. }
  destruct (grid_set_Ok g0 p ch Hshape Hi Hj) as (g1 & -> & Hshape1 & Hp & Hother).
  simpl. destruct (IH g1 Hshape1) as [(Hws & g & Hg & Hshapeg & Hcells)|[Hws Hg]].
  - left. split; [by constructor|]. exists g. split; [done|]. split; [done|].
    intros q. destruct (Hcells q) as [[Hq Hnone]|(ch' & Hin & Hq)].
    + destruct (decide (q = p)) as [->|Hne].
      * right. exists ch. split; [left|]. by rewrite Hq.
      * left. split; [by rewrite Hq, Hother|].
        intros ch' [?|?]%elem_of_cons; [by simplify_eq|by eapply Hnone].
    + right. exists ch'. split; [by right|done].
  - right. split; [|done]. by intros [_ ?]%Forall_cons.
Qed.
End writes.

Lemma replicate_shape height width :
  grid_shape height width (replicate height (replicate width (None : option ascii))).
Proof.
  split; [by rewrite length_replicate|].
  apply Forall_forall. intros row [-> _]%elem_of_replicate. by rewrite length_replicate.
Qed.

Lemma grid_at_replicate height width p :
  p.1 < height → p.2 < width →
  grid_at (replicate height (replicate width (None : option ascii))) p = Some None.
Proof.
  intros Hi Hj. unfold grid_at. rewrite lookup_replicate_2 by done.
  by apply lookup_replicate_2.
Qed.

Lemma letter_grid_outcome height width (a : assignment) :
  (∀ p ch, covers a p ch → p.1 < height ∧ p.2 < width)
  ∧ (∃ g, letter_grid height width a = Ok g ∧ grid_shape height width g
       ∧ ∀ p, p.1 < height → p.2 < width →
           grid_at g p = Some None ∧ (∀ ch, ¬ covers a p ch)
           ∨ ∃ ch, covers a p ch ∧ grid_at g p = Some (Some ch))
  ∨ (∃ p ch, covers a p ch ∧ ¬ (p.1 < height ∧ p.2 < width))
    ∧ letter_grid height width a = Raise IndexError.
Proof.
  rewrite letter_grid_writes.
  destruct (writes_outcome height width (map_to_list a ≫= λ entry, word_writes entry)
              _ (replicate_shape height width))
    as [(Hws & g & Hg & Hshape & Hcells)|[Hws Hg]].
  - left. split.
    { intros p ch Hc%elem_of_writes. rewrite Forall_forall in Hws. by apply Hws in Hc. }
    exists g. split; [done|]. split; [done|]. intros p Hi Hj.
    destruct (Hcells p) as [[Hp Hnone]|(ch & Hin & Hp)].
    + left. rewrite Hp, grid_at_replicate by done. split; [done|].
      intros ch Hc%elem_of_writes. by eapply Hnone.
    + right. exists ch. by rewrite <-elem_of_writes.
  - right. split; [|done]. apply not_Forall_Exists in Hws; [|apply _].
    apply Exists_exists in Hws as ([p ch] & Hin%elem_of_writes & Hout). eauto.
Qed.

(** X20: whatever the assignment, [letter_grid] either puts every letter inside
    the grid and returns [height] rows of [width] cells, where a cell that
    no letter falls on is [None] and any other cell holds one of the
    letters that fall on it; or some letter falls outside the grid and the
    call raises [IndexError]. *)
Theorem letter_grid_cells (height width : nat) (a : assignment) :
  (∀ p ch, covers a p ch → p.1 < height ∧ p.2 < width)
  ∧ (∃ g, letter_grid height width a = Ok g ∧ grid_shape height width g
       ∧ ∀ p, p.1 < height → p.2 < width →
           grid_at g p = Some None ∧ (∀ ch, ¬ covers a p ch)
           ∨ ∃ ch, covers a p ch ∧ grid_at g p = Some (Some ch))
  ∨ (∃ p ch, covers a p ch ∧ ¬ (p.1 < height ∧ p.2 < width))
    ∧ letter_grid height width a = Raise IndexError.
Proof. apply letter_grid_outcome. Qed.

(** X21: when the letters that fall on one cell are all the same, every word of
    the assignment can be read off the grid that [letter_grid] returns,
    letter by letter along its slot. *)
Theorem letter_grid_reads_back (height width : nat) (a : assignment)
    (g : list (list (option ascii))) :
  letter_grid height width a = Ok g →
  (∀ p c1 c2, covers a p c1 → covers a p c2 → c1 = c2) →
  ∀ v w k ch, a !! v = Some w → String.get k w = Some ch →
    grid_at g (cell v k) = Some (Some ch).
Proof.
  intros Hg Hagree v w k ch Hw Hget.
  assert (covers a (cell v k) ch) as Hc by (exists v, w, k; done).
  destruct (letter_grid_outcome height width a)
    as [(Hin & g' & Hg' & _ & Hcells)|[_ Hraise]]; [|congruence].
  rewrite Hg in Hg'. injection Hg' as <-.
  destruct (Hin _ _ Hc) as [Hi Hj].
  destruct (Hcells (cell v k) Hi Hj) as [[_ Hnone]|(ch' & Hc' & Hat)].
  - by destruct (Hnone ch).
  - by rewrite (Hagree _ _ _ Hc Hc').
Qed.

Lemma letter_grid_reads_back_witness :
  grid_at [[Some "c"; Some "a"; Some "t"]; [None; None; None]]%char (cell across3 1)
  = Some (Some "a"%char).
Proof.
  apply (letter_grid_reads_back 2 3 {[across3 := "cat"]} _) with (w := "cat").
  - vm_compute. reflexivity.
  - intros p c1 c2 (v1 & w1 & k1 & H1 & G1 & C1) (v2 & w2 & k2 & H2 & G2 & C2).
    apply lookup_singleton_Some in H1 as [<- <-]. apply lookup_singleton_Some in H2 as [<- <-].
    rewrite <-C2 in C1. unfold cell in C1. simpl in C1.
    assert (k1 = k2) as -> by congruence. congruence.
  - vm_compute. reflexivity.
  - reflexivity.
Defined.

(** X22: when [ac3] returns [False], the domains given to it hold no assignment
    that fills every variable with letters agreeing at all overlaps. *)
Theorem ac3_False_no_solution (c : Crossword) (d d' : domains) :
  overlap_symmetric c → dom d = variables c →
  ac3 c d None = Ok (false, d') →
  ¬ ∃ s : assignment, dom s = variables c ∧ overlaps_agree c s
                      ∧ ∀ v w, s !! v = Some w → w ∈ d !!! v.
Proof.
  intros Hsym Hdom H (s & Hs & Hag & Hin). unfold ac3 in H. simpl in H.
  destruct (solution_in_store c s d Hsym Hs Hag) as [Hsub Hsup].
  { intros v w Hw. assert (is_Some (d !! v)) as [sv Hsv].
    { rewrite <-elem_of_dom, Hdom, <-Hs. by apply elem_of_dom_2 in Hw. }
    exists sv. split; [done|]. specialize (Hin v w Hw).
    by rewrite (lookup_total_correct _ _ _ Hsv) in Hin. }
  pose proof (ac3_loop_keeps_sub_store c _ Hsup _ _ _ _ _ H Hsub) as Hsub'.
  apply ac3_loop_false in H as (x & sx & Hsx & _ & Hx).
  assert (is_Some (s !! x)) as [w Hw].
  { rewrite <-elem_of_dom, Hs, <-Hdom. by apply elem_of_dom_2 in Hsx. }
  destruct (Hsub' x {[w]}) as (s' & Hs' & Hsubset); [by rewrite lookup_fmap, Hw|].
  simplify_eq. set_solver.
Qed.

Lemma ac3_False_no_solution_witness :
  ac3 (corner ∅) {[across3 := {["cat"]}; down3 := {["dog"]}]} None
  = Ok (false, {[across3 := ∅; down3 := {["dog"]}]})
  ∧ ¬ ∃ s : assignment, dom s = variables (corner ∅) ∧ overlaps_agree (corner ∅) s
        ∧ ∀ v w, s !! v = Some w
            → w ∈ ({[across3 := {["cat"]}; down3 := {["dog"]}]} : domains) !!! v.
Proof.
  split; [vm_compute; reflexivity|].
  apply (ac3_False_no_solution (corner ∅) _ {[across3 := ∅; down3 := {["dog"]}]}).
  - apply corner_symmetric.
  - vm_compute. reflexivity.
  - vm_compute. reflexivity.
Defined.

(** ** When [select_unassigned_variable] returns [None] *)

Lemma highest_degree_None c (lowest : list variable) : ∀ n0,
  (foldl (λ (st : nat * option variable) variable,
      if decide (st.1 < length (neighbors c variable))
      then (length (neighbors c variable), Some variable)
      else st) (n0, None) lowest).2 = None
  ↔ ∀ u, u ∈ lowest → ¬ n0 < length (neighbors c u).
Proof.
  induction lowest as [|x l IH]; intros n0; simpl.
  { split; [|done]. by intros _ u ?%not_elem_of_nil. }
  case_decide as Hx; simpl.
  - split.
    + intros Hnone. destruct (highest_degree_Some c l (length (neighbors c x)) (Some x))
        as [v Hv]; [by eexists|]. congruence.
    + intros Hall. destruct (Hall x); [left|done].
  - rewrite IH. split.
    + intros Hall u [->|?]%elem_of_cons; auto.
    + intros Hall u ?. apply Hall. by right.
Qed.

Lemma filter_fst_fmap (f : variable → N) (l : N) (pv : list variable) :
  (filter (λ p : variable * N, p.2 = l) ((λ u, (u, f u)) <$> pv)).*1
  = filter (λ u, f u = l) pv.
Proof.
  induction pv as [|u pv IH]; [done|].
  rewrite fmap_cons, !filter_cons. simpl. case_decide; simpl; [f_equal|]; exact IH.
Qed.

Lemma select_unassigned_variable_None_iff c (d : domains) (a : assignment) :
  (∀ v sv, d !! v = Some sv → (N.of_nat (size sv) ≤ 999999999)%N) →
  select_unassigned_variable c d a = Ok None
  ↔ ∀ u, minimal_unassigned d a u →
      neighbors c u = [] ∧ ∃ u', u' ≠ u ∧ minimal_unassigned d a u'.
Proof.
  intros Hsize. unfold select_unassigned_variable.
  set (pv := filter (λ x, x ∉ keys a) (keys d)).
  assert (∀ u, u ∈ pv ↔ u ∈ dom d ∧ u ∉ dom a) as Hpv.
  { intros u. unfold pv. rewrite list_elem_of_filter, !elem_of_keys, !elem_of_dom. tauto. }
  assert (NoDup pv) as Hnd by (apply NoDup_filter, NoDup_keys).
  rewrite (mapM_total _ (λ u, (u, N.of_nat (size (d !!! u))))).
  2:{ intros u [[sv Hsv]%elem_of_dom _]%Hpv.
      rewrite (proj2 (domains_get_Ok d u sv) Hsv). simpl.
      by rewrite (lookup_total_correct _ _ _ Hsv). }
  simpl. set (vv := (λ u, (u, N.of_nat (size (d !!! u)))) <$> pv).
  destruct (lowest_size_le vv 999999999%N) as [_ Hmin].
  pose proof (lowest_size_attained vv 999999999%N) as Hatt.
  set (l := foldl _ _ vv) in *.
  assert ((filter (λ p : variable * N, p.2 = l) vv).*1
          = filter (λ u, N.of_nat (size (d !!! u)) = l) pv) as ->.
  { apply (filter_fst_fmap (λ u, N.of_nat (size (d !!! u)))). }
  set (lowest := filter _ pv).
  assert (NoDup lowest) as Hndl by by apply NoDup_filter.
  assert (∀ u, u ∈ lowest ↔ minimal_unassigned d a u) as Hlow.
  { intros u. unfold lowest. rewrite list_elem_of_filter, Hpv. split.
    - intros [Hl [Hd Ha]]. split; [done|]. split; [done|]. intros u' Hd' Ha'.
      assert ((u', N.of_nat (size (d !!! u'))) ∈ vv) as Hin.
      { apply list_elem_of_fmap. exists u'. split; [done|]. by apply Hpv. }
      apply Hmin in Hin. simpl in Hin. lia.
    - intros (Hd & Ha & Hleast). split; [|done].
      assert ((u, N.of_nat (size (d !!! u))) ∈ vv) as Hin.
      { apply list_elem_of_fmap. exists u. split; [done|]. by apply Hpv. }
      pose proof (Hmin _ Hin) as Hle. simpl in Hle.
      destruct Hatt as [Hl|(p & Hp & Hpl)].
      + apply elem_of_dom in Hd as [sv Hsv]. pose proof (Hsize u sv Hsv).
        rewrite (lookup_total_correct _ _ _ Hsv) in *. lia.
      + apply list_elem_of_fmap in Hp as (u' & -> & [Hd' Ha']%Hpv). simpl in Hpl.
        specialize (Hleast u' Hd' Ha'). lia. }
  clearbody lowest.
  assert (∀ u, neighbors c u = [] ↔ ¬ 0 < length (neighbors c u)) as Hiso.
  { intros u. destruct (neighbors c u); simpl; split; try done; lia. }
  destruct lowest as [|x [|y lowest']].
  - split; [|done]. intros _ u Hu%Hlow. by apply not_elem_of_nil in Hu.
  - split; [done|]. intros Hall.
    destruct (Hall x) as (_ & u' & Hne & Hu'%Hlow); [apply Hlow; left|].
    by apply list_elem_of_singleton in Hu'.
  - split.
    + intros H. injection H as H.
      pose proof (proj1 (highest_degree_None c (x :: y :: lowest') 0) H) as H'.
      intros u Hu%Hlow. split; [by apply Hiso, H'|].
      apply NoDup_cons in Hndl as [Hxy _]. rewrite not_elem_of_cons in Hxy.
      destruct (decide (u = x)) as [->|?].
      * exists y. split; [naive_solver|]. apply Hlow. right; left.
      * exists x. split; [done|]. apply Hlow. left.
    + intros Hall. f_equal. apply highest_degree_None.
      intros u Hu%Hlow. apply Hiso. by apply Hall.
Qed.

(** X23: with domains of at most 999999999 words, [select_unassigned_variable]
    returns [None] exactly when every unassigned variable with the fewest
    words left has no neighbour and is not the only such variable (which
    includes the case that no variable is unassigned). *)
Theorem select_unassigned_variable_None (c : Crossword) (d : domains) (a : assignment) :
  (∀ v sv, d !! v = Some sv → (N.of_nat (size sv) ≤ 999999999)%N) →
  select_unassigned_variable c d a = Ok None
  ↔ ∀ u, minimal_unassigned d a u →
      neighbors c u = [] ∧ ∃ u', u' ≠ u ∧ minimal_unassigned d a u'.
Proof. apply select_unassigned_variable_None_iff. Qed.

Lemma select_unassigned_variable_None_witness :
  select_unassigned_variable (rows ∅)
    {[across3 := {["cat"; "dog"]}; low3 := {["cat"; "dog"]}]} ∅ = Ok None
  ↔ ∀ u, minimal_unassigned {[across3 := {["cat"; "dog"]}; low3 := {["cat"; "dog"]}]} ∅ u →
      neighbors (rows ∅) u = []
      ∧ ∃ u', u' ≠ u
          ∧ minimal_unassigned {[across3 := {["cat"; "dog"]}; low3 := {["cat"; "dog"]}]} ∅ u'.
Proof.
  apply select_unassigned_variable_None.
  intros v sv Hv. destruct (decide (v = across3)) as [->|?].
  - rewrite lookup_insert_eq in Hv. injection Hv as <-. by vm_compute.
  - rewrite lookup_insert_ne in Hv by done.
    apply lookup_singleton_Some in Hv as [_ <-]. by vm_compute.
Defined.
